(** * rtutil: the lock-free circular buffer and the two streaming loops

    A shallow embedding of the header [circular_buffer.hh] (the functions
    [is_pow2] and [next_pow2] and the class template [CircularBuffer]), of
    [PlaybackProcess] from [play_audio_file.cc], of [RecordProcess] from
    [record_audio_file.cc] and of the two formatting helpers of
    [audio_device.cc].

    - [std::size_t] is a 64-bit word: a [Z] in [0, 2^64) with the wrap-around
      of every arithmetic operation written out ([SizeT]).
    - [sf_count_t] is a signed 64-bit integer ([to_sf_count]).
    - [std::vector<DataType>] and the raw [DataType *] buffers handed to
      [enqueue], [dequeue] and to the audio callbacks are lists; [std::copy]
      and [std::fill] fail ([None]) as soon as one of their ranges leaves
      the list it walks, so a call that is defined made no access out of
      bounds.
    - An audio callback runs as one step, and it can run between any two
      ring-buffer calls of the IO thread.  An IO loop consumes a schedule
      that says, turn by turn, which callbacks ran before the availability
      check, which ran between the check and the transfer that follows it,
      and what the file library answers; it produces the trace of what the
      IO thread did and whether [start()] has returned. *)

From Stdlib Require Import ZArith List Lia Bool.
From Stdlib Require String Ascii.
Import ListNotations.
Import String.StringSyntax.
Local Open Scope Z_scope.
Delimit Scope string_scope with string.

(** ** Machine integers *)

Module SizeT.
(** [std::numeric_limits<std::size_t>::digits] *)
Definition n_bits : Z := 64.
Definition modulus : Z := 2 ^ n_bits.
Definition wrap (z : Z) : Z := z mod modulus.
Definition add (a b : Z) : Z := wrap (a + b).
Definition sub (a b : Z) : Z := wrap (a - b).
Definition mul (a b : Z) : Z := wrap (a * b).
(** [a << n] on a [std::size_t]; the bits shifted past the top are lost.
    (For [n >= n_bits] C++ leaves the shift undefined; the word model
    gives the value modulo [2^n_bits].) *)
Definition shl (a n : Z) : Z := wrap (Z.shiftl a n).
Definition in_range (z : Z) : Prop := 0 <= z < modulus.
End SizeT.

(** [static_cast<sf_count_t>(z)] of a [std::size_t]: two's complement. *)
Definition to_sf_count (z : Z) : Z :=
  if z <? 2 ^ 63 then z else z - 2 ^ 64.

(** [static_cast<std::size_t>(z)] of an [sf_count_t] or of an [int]. *)
Definition to_size_t (z : Z) : Z := SizeT.wrap z.

(** ** circular_buffer.hh: the free functions *)

Definition is_pow2 (z : Z) : bool :=
  if z >? 0 then Z.land z (SizeT.sub z 1) =? 0 else false.

(** [std::countl_zero(z)]: the number of zero bits above the highest set bit,
    scanning from bit [n_bits - 1] downwards. *)
Fixpoint countl_zero_from (top : nat) (z : Z) : Z :=
  match top with
  | O => 0
  | S i => if Z.testbit z (Z.of_nat i) then 0 else 1 + countl_zero_from i z
  end.

Definition countl_zero (z : Z) : Z :=
  countl_zero_from (Z.to_nat SizeT.n_bits) z.

(** The C++20 branch of the preprocessor conditional (the project is built
    with [CMAKE_CXX_STANDARD 20]). *)
Definition next_pow2 (z : Z) : Z :=
  if z <=? 2 then 2
  else if is_pow2 z then z
  else
    let lg2 := (SizeT.n_bits - 1) - countl_zero z in
    SizeT.shl 1 (lg2 + 1).

(** [compute_read_available]; its two [assert]s are the lemmas
    [assert_capacity_is_pow2] and [assert_read_available_lt] below. *)
Definition compute_read_available (read_head write_head capacity : Z) : Z :=
  let mask := SizeT.sub capacity 1 in
  if write_head >? read_head then SizeT.sub write_head read_head
  else Z.land (SizeT.add (SizeT.sub capacity write_head) read_head) mask.

Definition compute_write_available (read_head write_head capacity : Z) : Z :=
  SizeT.sub
    (SizeT.sub capacity (compute_read_available read_head write_head capacity))
    1.

(** ** A small error monad for code that can leave a buffer *)

Definition bind {A B : Type} (m : option A) (k : A -> option B) : option B :=
  match m with
  | Some a => k a
  | None => None
  end.

Notation "x <- m ;; k" := (bind m (fun x => k))
  (at level 61, m at next level, right associativity).
Notation "' pat <- m ;; k" := (bind m (fun x => match x with pat => k end))
  (at level 61, pat pattern, m at next level, right associativity).

(** Element [i] of a sequence, for an index computed in [Z]. *)
Definition zth {A : Type} (l : list A) (i : Z) : option A :=
  nth_error l (Z.to_nat i).

(** ** circular_buffer.hh: the class template *)

Section CircularBufferModel.
Context {DataType : Type}.
(** The value-initialised element, [DataType()]; [0.0F] for [float]. *)
Variable zero : DataType.

Definition len (l : list DataType) : Z := Z.of_nat (length l).

(** [std::copy(first, last, d_first)] with [first = src + a],
    [last = src + b] and [d_first = dst + off]: the result is the
    destination sequence after the copy, [None] if either range is not
    inside its sequence. *)
Definition std_copy (src : list DataType) (a b : Z)
                    (dst : list DataType) (off : Z) : option (list DataType) :=
  if (0 <=? a) && (a <=? b) && (b <=? len src)
     && (0 <=? off) && (off + (b - a) <=? len dst)
  then Some (firstn (Z.to_nat off) dst
             ++ firstn (Z.to_nat (b - a)) (skipn (Z.to_nat a) src)
             ++ skipn (Z.to_nat (off + (b - a))) dst)
  else None.

(** [std::fill(first, last, v)] over [dst[0 .. n)]. *)
Definition std_fill (dst : list DataType) (n : Z) (v : DataType)
  : option (list DataType) :=
  if (0 <=? n) && (n <=? len dst)
  then Some (repeat v (Z.to_nat n) ++ skipn (Z.to_nat n) dst)
  else None.

Record CircularBuffer : Type := mkCircularBuffer {
  buffer_ : list DataType;
  read_head_ : Z;
  write_head_ : Z
}.

(** [CircularBuffer(std::size_t capacity)] *)
Definition CircularBuffer_new (capacity : Z) : CircularBuffer :=
  mkCircularBuffer (repeat zero (Z.to_nat (next_pow2 capacity))) 0 0.

(** [CircularBuffer() = default] *)
Definition CircularBuffer_default : CircularBuffer :=
  mkCircularBuffer [] 0 0.

Definition capacity (cb : CircularBuffer) : Z := len (buffer_ cb).

Definition get_read_available (cb : CircularBuffer) : Z :=
  compute_read_available (read_head_ cb) (write_head_ cb) (capacity cb).

Definition get_write_available (cb : CircularBuffer) : Z :=
  compute_write_available (read_head_ cb) (write_head_ cb) (capacity cb).

(** [dequeue(dst, size)]: the buffer after the call, the destination
    after the call and the returned count. *)
Definition dequeue (cb : CircularBuffer) (dst : list DataType) (size : Z)
  : option (CircularBuffer * list DataType * Z) :=
  let read_start := read_head_ cb in
  let write_start := write_head_ cb in
  let ring_size := capacity cb in
  let ring_mask := SizeT.sub ring_size 1 in
  let read_available :=
    compute_read_available read_start write_start ring_size in
  let read_size := Z.min size read_available in
  let read_end := SizeT.add read_start read_size in
  let cnt_hi := SizeT.sub ring_size read_start in
  let cnt_lo := Z.land read_end ring_mask in
  dst' <- (if read_end >? ring_size then
             d1 <- std_copy (buffer_ cb) read_start ring_size dst 0 ;;
             std_copy (buffer_ cb) 0 cnt_lo d1 cnt_hi
           else
             std_copy (buffer_ cb) read_start (read_start + read_size)
                      dst 0) ;;
  let read_head := cnt_lo in
  Some (mkCircularBuffer (buffer_ cb) read_head (write_head_ cb),
        dst', read_size).

(** [enqueue(src, size)]: the buffer after the call and the returned
    count. *)
Definition enqueue (cb : CircularBuffer) (src : list DataType) (size : Z)
  : option (CircularBuffer * Z) :=
  let read_start := read_head_ cb in
  let write_start := write_head_ cb in
  let ring_size := capacity cb in
  let ring_mask := SizeT.sub ring_size 1 in
  let write_available :=
    compute_write_available read_start write_start ring_size in
  let write_size := Z.min size write_available in
  let write_end := SizeT.add write_start write_size in
  let cnt_hi := SizeT.sub ring_size write_start in
  let cnt_lo := Z.land write_end ring_mask in
  buf' <- (if write_end >? ring_size then
             b1 <- std_copy src 0 cnt_hi (buffer_ cb) write_start ;;
             std_copy src cnt_hi write_size b1 0
           else
             std_copy src 0 write_size (buffer_ cb) write_start) ;;
  let write_head := cnt_lo in
  Some (mkCircularBuffer buf' (read_head_ cb) write_head, write_size).

(** A sequence of calls made by the producer and the consumer, in the
    order in which they take effect. *)
Inductive call : Type :=
| Enqueue (src : list DataType) (size : Z)
| Dequeue (dst : list DataType) (size : Z).

Definition do_call (cb : CircularBuffer) (c : call) : option CircularBuffer :=
  match c with
  | Enqueue src size => '(cb', _) <- enqueue cb src size ;; Some cb'
  | Dequeue dst size => '(cb', _, _) <- dequeue cb dst size ;; Some cb'
  end.

Fixpoint run_calls (cb : CircularBuffer) (cs : list call)
  : option CircularBuffer :=
  match cs with
  | [] => Some cb
  | c :: cs' => cb' <- do_call cb c ;; run_calls cb' cs'
  end.

(** The caller's side of the contract: the pointer handed in covers the
    requested number of elements. *)
Definition call_ok (c : call) : Prop :=
  match c with
  | Enqueue src size => 0 <= size <= len src /\ SizeT.in_range size
  | Dequeue dst size => 0 <= size <= len dst /\ SizeT.in_range size
  end.

(** States reachable from the constructor by producer and consumer calls. *)
Inductive reachable (requested : Z) : CircularBuffer -> Prop :=
| reach_new : reachable requested (CircularBuffer_new requested)
| reach_call cb c cb' :
    reachable requested cb -> do_call cb c = Some cb' ->
    reachable requested cb'.

(** Class invariant: the capacity is a power of two and both heads are
    indices of the storage. *)
Definition wf (cb : CircularBuffer) : Prop :=
  is_pow2 (capacity cb) = true
  /\ SizeT.in_range (capacity cb)
  /\ 0 <= read_head_ cb < capacity cb
  /\ 0 <= write_head_ cb < capacity cb.

(** The storage cell at ring position [i], counted modulo the capacity. *)
Definition cell (cb : CircularBuffer) (i : Z) : option DataType :=
  zth (buffer_ cb) (i mod capacity cb).

End CircularBufferModel.

Arguments CircularBuffer : clear implicits.
Arguments call : clear implicits.

(** ** The streaming loops: what an observer sees *)

Section StreamingModel.
Context {DataType : Type}.
(** [0.0F] *)
Variable zero : DataType.

(** The steps of an IO thread, in program order. *)
Inductive event : Type :=
| EvCheck (available : Z)
    (* get_read_available() / get_write_available() at the loop head *)
| EvDequeue (size returned : Z)
    (* circ_buffer_.dequeue(buffer, size) *)
| EvWrite (buffer : list DataType) (frames written : Z)
    (* file_.writef(buffer, frames) *)
| EvSync
    (* file_.writeSync() *)
| EvRead (frames got : Z) (buffer : list DataType)
    (* file_.readf(buffer, frames), with the buffer it leaves *)
| EvEnqueue (buffer : list DataType) (size returned : Z)
    (* circ_buffer_.enqueue(buffer, size) *)
| EvWait.
    (* condition_variable::wait(lock) *)

(** Whether [start()] has returned when the schedule runs out. *)
Inductive status : Type := Running | Exited.

(** *** play_audio_file.cc *)


Definition PLAY_BUFFER_FACTOR : Z := 4.

Record PlaybackProcess : Type := mkPlaybackProcess {
  pb_channels : Z;                          (* file_.channels(), an int *)
  pb_circ_buffer_ : CircularBuffer DataType;
  pb_file_io_buffer_ : list DataType;
  pb_io_counter_ : Z
}.


(** [read_frames(output, frames)], run by the audio callback.
    [try_lock] is what [file_io_lock_.try_lock()] answers if it is asked;
    the last component says whether [notify_one] was called. *)
Definition read_frames (p : PlaybackProcess) (output : list DataType)
                       (frames : Z) (try_lock : bool)
  : option (PlaybackProcess * list DataType * bool) :=
  let channels := to_size_t (pb_channels p) in
  let read_available := get_read_available (pb_circ_buffer_ p) in
  let data_needed := SizeT.mul frames channels in
  '(circ, out) <-
    (if read_available >? data_needed then
       '(cb', out, _) <- dequeue (pb_circ_buffer_ p) output data_needed ;;
       Some (cb', out)
     else
       out <- std_fill output data_needed zero ;;
       Some (pb_circ_buffer_ p, out)) ;;
  if (pb_io_counter_ p >=? SizeT.mul PLAY_BUFFER_FACTOR 3 / 4) && try_lock
  then Some (mkPlaybackProcess (pb_channels p) circ
               (pb_file_io_buffer_ p) 0, out, true)
  else Some (mkPlaybackProcess (pb_channels p) circ
               (pb_file_io_buffer_ p) (SizeT.add (pb_io_counter_ p) 1),
             out, false).

(** One invocation of [audio_callback]: the output buffer handed in,
    [n_frame], and the answer of [try_lock]. *)
Definition play_callback : Type := (list DataType * Z * bool)%type.

Fixpoint play_callbacks (p : PlaybackProcess) (cs : list play_callback)
  : option PlaybackProcess :=
  match cs with
  | [] => Some p
  | (output, n_frame, try_lock) :: cs' =>
      '(p', _, _) <- read_frames p output n_frame try_lock ;;
      play_callbacks p' cs'
  end.

(** One turn of the playback IO loop as the schedule sees it: the
    callbacks that ran since the previous turn, those that run while the
    file is read (after the check, before the [enqueue]), and what
    [file_.readf] answers if it is called: the frame count it returns and
    the samples it stores at the start of the staging buffer. *)
Record play_turn : Type := mkPlayTurn {
  pt_callbacks : list play_callback;
  pt_callbacks_during : list play_callback;
  pt_readf_frames : Z;
  pt_readf_data : list DataType
}.

(** [PlaybackProcess::start()].  The progress display, which only writes
    to [std::cout], is left out. *)
Fixpoint playback_loop (buffer_len channels frames : Z)
                       (p : PlaybackProcess) (sched : list play_turn)
  : option (PlaybackProcess * list event * status) :=
  match sched with
  | [] => Some (p, [], Running)
  | t :: sched' =>
      p <- play_callbacks p (pt_callbacks t) ;;
      let write_available :=
        to_sf_count (get_write_available (pb_circ_buffer_ p)) in
      if write_available >? buffer_len then
        p <- play_callbacks p (pt_callbacks_during t) ;;
        buffer <- std_copy (pt_readf_data t) 0 (len (pt_readf_data t))
                           (pb_file_io_buffer_ p) 0 ;;
        let read_frames := pt_readf_frames t in
        let read_len := read_frames * channels in
        '(circ, returned) <-
          enqueue (pb_circ_buffer_ p) buffer (to_size_t read_len) ;;
        let p := mkPlaybackProcess (pb_channels p) circ buffer
                   (pb_io_counter_ p) in
        let evs := [EvCheck write_available;
                    EvRead frames read_frames buffer;
                    EvEnqueue buffer (to_size_t read_len) returned] in
        if read_frames <? frames then
          Some (p, evs, Exited)
        else
          '(p', tr, st) <- playback_loop buffer_len channels frames p sched' ;;
          Some (p', evs ++ EvWait :: tr, st)
      else
        '(p', tr, st) <- playback_loop buffer_len channels frames p sched' ;;
        Some (p', EvCheck write_available :: EvWait :: tr, st)
  end.

Definition playback_start (p : PlaybackProcess) (sched : list play_turn)
  : option (PlaybackProcess * list event * status) :=
  let buffer_len := to_sf_count (len (pb_file_io_buffer_ p)) in
  let channels := pb_channels p in
  if channels =? 0 then None   (* buffer_len / 0 *)
  else
    let frames := Z.quot buffer_len channels in
    playback_loop buffer_len channels frames p sched.

(** *** record_audio_file.cc *)

Definition REC_BUFFER_FACTOR : Z := 4.

Record RecordProcess : Type := mkRecordProcess {
  rc_channels : Z;                          (* file_.channels(), an int *)
  rc_circ_buffer_ : CircularBuffer DataType;
  rc_file_io_buffer_ : list DataType;
  rc_io_counter_ : Z
}.


(** [write_frames(input, frames)], run by the audio callback. *)
Definition write_frames (p : RecordProcess) (input : list DataType)
                        (frames : Z) (try_lock : bool)
  : option (RecordProcess * bool) :=
  let channels := to_size_t (rc_channels p) in
  '(circ, _) <-
    enqueue (rc_circ_buffer_ p) input (SizeT.mul frames channels) ;;
  if (rc_io_counter_ p >=? REC_BUFFER_FACTOR) && try_lock
  then Some (mkRecordProcess (rc_channels p) circ
               (rc_file_io_buffer_ p) 0, true)
  else Some (mkRecordProcess (rc_channels p) circ
               (rc_file_io_buffer_ p) (SizeT.add (rc_io_counter_ p) 1),
             false).

Definition rec_callback : Type := (list DataType * Z * bool)%type.

Fixpoint rec_callbacks (p : RecordProcess) (cs : list rec_callback)
  : option RecordProcess :=
  match cs with
  | [] => Some p
  | (input, n_frame, try_lock) :: cs' =>
      '(p', _) <- write_frames p input n_frame try_lock ;;
      rec_callbacks p' cs'
  end.

(** One turn of the capture IO loop: the callbacks that ran since the
    previous turn, those that run after the check and before the
    [dequeue], and the frame count [file_.writef] answers if it is
    called. *)
Record rec_turn : Type := mkRecTurn {
  rt_callbacks : list rec_callback;
  rt_callbacks_during : list rec_callback;
  rt_writef_frames : Z
}.

(** The [for (;;)] of [RecordProcess::start()].  The second component of
    the result is the trace of the loop alone.  The progress display and
    its counter, which only feed [std::cout], are left out. *)
Fixpoint record_loop (buffer_len frames : Z)
                     (p : RecordProcess) (sched : list rec_turn)
  : option (RecordProcess * list event * status) :=
  match sched with
  | [] => Some (p, [], Running)
  | t :: sched' =>
      p <- rec_callbacks p (rt_callbacks t) ;;
      let read_available := get_read_available (rc_circ_buffer_ p) in
      if read_available >? to_size_t buffer_len then
        p <- rec_callbacks p (rt_callbacks_during t) ;;
        '(circ, buffer, returned) <-
          dequeue (rc_circ_buffer_ p) (rc_file_io_buffer_ p)
                  (to_size_t buffer_len) ;;
        let write_frames := rt_writef_frames t in
        let p := mkRecordProcess (rc_channels p) circ buffer
                   (rc_io_counter_ p) in
        let evs := [EvCheck read_available;
                    EvDequeue (to_size_t buffer_len) returned;
                    EvWrite buffer frames write_frames;
                    EvSync] in
        if write_frames <? frames then
          Some (p, evs, Exited)                      (* break *)
        else
          '(p', tr, st) <- record_loop buffer_len frames p sched' ;;
          Some (p', evs ++ tr, st)
      else
        '(p', tr, st) <- record_loop buffer_len frames p sched' ;;
        Some (p', EvCheck read_available :: tr, st)
  end.

(** [RecordProcess::start()]: the loop, then the
    [data_ready_.wait(lock)] that follows its closing brace. *)
Definition record_start (p : RecordProcess) (sched : list rec_turn)
  : option (RecordProcess * list event * status) :=
  let buffer_len := to_sf_count (len (rc_file_io_buffer_ p)) in
  let channels := rc_channels p in
  if channels =? 0 then None   (* buffer_len / 0 *)
  else
    let frames := Z.quot buffer_len channels in
    '(p', tr, st) <- record_loop buffer_len frames p sched ;;
    match st with
    | Exited => Some (p', tr ++ [EvWait], Exited)
    | Running => Some (p', tr, Running)
    end.

End StreamingModel.

Arguments event : clear implicits.
Arguments PlaybackProcess : clear implicits.
Arguments RecordProcess : clear implicits.
Arguments play_turn : clear implicits.
Arguments rec_turn : clear implicits.

(** ** Vocabulary of the statements *)

Definition power_of_two (z : Z) : Prop := exists k, 0 <= k /\ z = 2 ^ k.

(** [k] is the position of the highest set bit of [z]. *)
Definition highest_set_bit (z k : Z) : Prop :=
  Z.testbit z k = true /\ forall j, k < j -> Z.testbit z j = false.

(** What the documentation says [next_pow2] returns, case by case, read as
    the cascade the code is: the third case gives [2^(k+1)] for [k] the
    highest set bit, the smallest power of two strictly above the
    request. *)
Definition next_pow2_cases (requested : Z) : Prop :=
  (requested <= 2 -> next_pow2 requested = 2)
  /\ (2 < requested -> power_of_two requested ->
      next_pow2 requested = requested)
  /\ (2 < requested -> ~ power_of_two requested ->
      exists k,
        highest_set_bit requested k
        /\ next_pow2 requested = 2 ^ (k + 1)
        /\ requested < next_pow2 requested
        /\ forall q, power_of_two q -> requested < q ->
                     next_pow2 requested <= q).

(** The result is a power of two that covers the request. *)
Definition next_pow2_covers (requested : Z) : Prop :=
  power_of_two (next_pow2 requested)
  /\ requested <= next_pow2 requested
  /\ (requested < 2 -> next_pow2 requested = 2).

(** Enqueue [values], then at once ask for as many back: the destination
    as [dequeue] leaves it and the count [dequeue] returns. *)
Definition roundtrip {DataType : Type} (zero : DataType)
    (cb : CircularBuffer DataType) (values : list DataType)
  : option (list DataType * Z) :=
  let k := len values in
  '(cb1, _) <- enqueue cb values k ;;
  '(_, dst, got) <- dequeue cb1 (repeat zero (length values)) k ;;
  Some (dst, got).

(** ** Concrete buffers used to exercise the statements *)

(** Capacity 16, freshly constructed from a request of 10. *)
Definition fresh_ring : CircularBuffer Z := CircularBuffer_new 0 10.

(** The calls that take [fresh_ring] to an empty state with both heads
    at 10: ten samples in, ten samples out. *)
Definition fill_and_drain : list (call Z) :=
  [Enqueue (repeat 7 10) 10; Dequeue (repeat 0 10) 10].

Definition drained_ring : CircularBuffer Z :=
  mkCircularBuffer (repeat 7 10 ++ repeat 0 6) 10 10.

Definition ten_samples : list Z := [1; 2; 3; 4; 5; 6; 7; 8; 9; 10].

(** What is said of one playback callback, for a given reading [enough] of
    "the ring buffer holds the samples this period needs": the call
    returns; when there is enough it leaves the ring buffer and the output
    as a [dequeue] of [frames * channels] samples that returned all of them
    does; when there is not, the first [frames * channels] samples of the
    output are zero and the ring buffer is untouched. *)
Definition callback_claim {DataType : Type} (zero : DataType)
    (enough : Z -> Z -> bool)
    (p : PlaybackProcess DataType) (output : list DataType)
    (frames : Z) (try_lock : bool) : Prop :=
  let n := SizeT.mul frames (to_size_t (pb_channels p)) in
  exists p' out' notified,
    read_frames zero p output frames try_lock = Some (p', out', notified)
    /\ if enough (get_read_available (pb_circ_buffer_ p)) n
       then dequeue (pb_circ_buffer_ p) output n
            = Some (pb_circ_buffer_ p', out', n)
       else firstn (Z.to_nat n) out' = repeat zero (Z.to_nat n)
            /\ pb_circ_buffer_ p' = pb_circ_buffer_ p.

(** The caller's side of the callback contract: the buffer handed to the
    callback covers [n_frame * channels] samples. *)
Definition callback_ok {DataType : Type} (channels : Z)
    (c : list DataType * Z * bool) : Prop :=
  let '(buffer, n_frame, _) := c in
  SizeT.mul n_frame (to_size_t channels) <= len buffer.

(** A recorder as its constructor and the file library leave it, and a
    capture schedule whose callbacks keep their contract. *)
Definition recorder_ok {DataType : Type} (p : RecordProcess DataType) : Prop :=
  wf (rc_circ_buffer_ p)
  /\ rc_channels p <> 0
  /\ len (rc_file_io_buffer_ p) < 2 ^ 63.

Definition rec_turn_ok {DataType : Type} (channels : Z)
    (t : rec_turn DataType) : Prop :=
  Forall (callback_ok channels) (rt_callbacks t)
  /\ Forall (callback_ok channels) (rt_callbacks_during t).

(** A player as its constructor and the file library leave it, and a
    playback schedule on which the callbacks keep their contract and
    [readf] stores at most the frames it was asked for. *)
Definition player_ok {DataType : Type} (p : PlaybackProcess DataType) : Prop :=
  wf (pb_circ_buffer_ p)
  /\ 0 < pb_channels p
  /\ len (pb_file_io_buffer_ p) < 2 ^ 63.

(** No callback falls between a check and the [enqueue] it guards. *)
Definition quiet_reads {DataType : Type} (sched : list (play_turn DataType))
  : Prop :=
  Forall (fun t => pt_callbacks_during t = []) sched.

Definition play_turn_ok {DataType : Type} (channels staging_len : Z)
    (t : play_turn DataType) : Prop :=
  Forall (callback_ok channels) (pt_callbacks t)
  /\ Forall (callback_ok channels) (pt_callbacks_during t)
  /\ len (pt_readf_data t) <= staging_len
  /\ 0 <= pt_readf_frames t <= Z.quot staging_len channels.

(** A stereo player whose ring buffer holds exactly two frames. *)
Definition player_with_two_frames : PlaybackProcess Z :=
  mkPlaybackProcess 2
    (mkCircularBuffer ([1; 2; 3; 4] ++ repeat 0 12) 0 4)
    (repeat 0 8) 0.

(** A stereo player with an empty ring of 16 and a staging buffer of four
    frames, and a schedule on which the file ends after three of them. *)
Definition player_at_end_of_file : PlaybackProcess Z :=
  mkPlaybackProcess 2 fresh_ring (repeat 0 8) 0.

Definition end_of_file_schedule : list (play_turn Z) :=
  [mkPlayTurn [] [] 3 [1; 2; 3; 4; 5; 6];
   mkPlayTurn [] [] 4 [1; 2; 3; 4; 5; 6; 7; 8]].

(** A mono recorder (ring of 16, staging buffer of 4 frames) on which
    nothing has been captured yet, and three turns on which nothing
    happens. *)
Definition idle_recorder : RecordProcess Z :=
  mkRecordProcess 1 fresh_ring (repeat 0 4) 0.

Definition idle_schedule : list (rec_turn Z) :=
  [mkRecTurn [] [] 4; mkRecTurn [] [] 4; mkRecTurn [] [] 4].

(** A schedule on which the callback delivers six frames, the file takes
    only three of the four it is offered, and six more frames arrive
    afterwards. *)
Definition short_write_schedule : list (rec_turn Z) :=
  [mkRecTurn [([1; 2; 3; 4; 5; 6], 6, false)] [] 3;
   mkRecTurn [([7; 8; 9; 10; 11; 12], 6, false)] [] 4;
   mkRecTurn [] [] 4].

(** ** More of circular_buffer.hh *)

(** [std::vector::resize(n)]: the first [n] elements are kept and, if the
    vector was shorter, value-initialised elements are appended. *)
Definition vector_resize {DataType : Type} (zero : DataType)
    (l : list DataType) (n : Z) : list DataType :=
  firstn (Z.to_nat n) l ++ repeat zero (Z.to_nat n - length l).

(** [resize(new_size)]: the storage is resized, the heads are not
    touched. *)
Definition resize {DataType : Type} (zero : DataType)
    (cb : CircularBuffer DataType) (new_size : Z) : CircularBuffer DataType :=
  mkCircularBuffer
    (vector_resize zero (buffer_ cb) (next_pow2 new_size))
    (read_head_ cb) (write_head_ cb).

(** Ring position [j] lies among the [count] cells that start at
    [head]. *)
Definition in_span (cap head count j : Z) : bool :=
  (j - head) mod cap <? count.

(** ** The audio thread over many periods *)

(** The [notify_one] decisions of successive capture callbacks. *)
Fixpoint rec_notifications {DataType : Type} (p : RecordProcess DataType)
    (cs : list (list DataType * Z * bool))
  : option (RecordProcess DataType * list bool) :=
  match cs with
  | [] => Some (p, [])
  | (input, n_frame, try_lock) :: cs' =>
      '(p1, notified) <- write_frames p input n_frame try_lock ;;
      '(p2, rest) <- rec_notifications p1 cs' ;;
      Some (p2, notified :: rest)
  end.

(** The [notify_one] decisions of successive playback callbacks. *)
Fixpoint play_notifications {DataType : Type} (zero : DataType)
    (p : PlaybackProcess DataType) (cs : list (list DataType * Z * bool))
  : option (PlaybackProcess DataType * list bool) :=
  match cs with
  | [] => Some (p, [])
  | (output, n_frame, try_lock) :: cs' =>
      '(p1, _, notified) <- read_frames zero p output n_frame try_lock ;;
      '(p2, rest) <- play_notifications zero p1 cs' ;;
      Some (p2, notified :: rest)
  end.

(** Periods on which [try_lock] finds the mutex free. *)
Definition mutex_free {DataType : Type}
    (cs : list (list DataType * Z * bool)) : Prop :=
  Forall (fun c => snd c = true) cs.

(** Callback number [i] (from 0) of a run that starts with the counter at
    [c] notifies when the counter has gone through [period - 1]. *)
Definition notifies_at (period c : Z) (i : nat) : bool :=
  (c + Z.of_nat i + 1) mod period =? 0.

(** No callback falls between a check and the [dequeue] it guards. *)
Definition quiet_drains {DataType : Type} (sched : list (rec_turn DataType))
  : Prop :=
  Forall (fun t => rt_callbacks_during t = []) sched.

(** ** More concrete buffers *)

(** Capacity 16 with the write head wrapped behind the read head: the
    state [drained_ring] is in after ten more samples went in. *)
Definition wrapped_ring : CircularBuffer Z :=
  mkCircularBuffer ([7; 8; 9; 10] ++ repeat 7 6 ++ [1; 2; 3; 4; 5; 6]) 10 4.

(** Capacity 16 holding 15 samples: no slot is left for writing. *)
Definition full_ring : CircularBuffer Z :=
  mkCircularBuffer (map Z.of_nat (seq 1 15) ++ [0]) 0 15.

(** ** More concrete sessions *)

(** Seven capture periods of two mono frames each, and six playback
    periods of one stereo frame each, all finding the mutex free. *)
Definition capture_periods : list (list Z * Z * bool) :=
  repeat ([1; 2], 2, true) 7.

Definition playback_periods : list (list Z * Z * bool) :=
  repeat ([9; 9], 1, true) 6.

(** A turn on which the file fills the staging buffer of
    [player_at_end_of_file], and a schedule that goes through it before
    the file ends. *)
Definition full_read_turn : play_turn Z :=
  mkPlayTurn [] [] 4 [1; 2; 3; 4; 5; 6; 7; 8].

Definition two_turn_schedule : list (play_turn Z) :=
  [full_read_turn; full_read_turn].

(** A capture turn before which the callback delivered six mono frames,
    and on which the file takes three of the four frames offered. *)
Definition six_frames_turn : rec_turn Z :=
  mkRecTurn [([1; 2; 3; 4; 5; 6], 6, false)] [] 3.

(** ** audio_device.cc: the two formatting helpers *)

Section AudioDeviceModel.
Context {DataType : Type}.
(** [std::to_string] at the element type. *)
Variable to_string : DataType -> String.string.

(** One iteration of the loop of [vec_to_str], at index [i]. *)
Definition vec_to_str_step (data : list DataType) (out : String.string)
    (i : nat) : String.string :=
  match nth_error data i with
  | Some x =>
      let out := String.append out (to_string x) in
      if Z.of_nat i <? SizeT.sub (len data) 1
      then String.append out ", "%string
      else out
  | None => out     (* not reached: i < data.size() *)
  end.

(** [vec_to_str(data)]: the loop over [i = 0 .. data.size() - 1]. *)
Definition vec_to_str (data : list DataType) : String.string :=
  fold_left (vec_to_str_step data) (seq 0 (length data)) String.EmptyString.

End AudioDeviceModel.

(** [std::string::empty()] *)
Definition string_empty (s : String.string) : bool :=
  match s with
  | String.EmptyString => true
  | String.String _ _ => false
  end.

Section SampleFormatsModel.
(** The sample-format bits of the audio library, in the order of the
    table [dtype]. *)
Variables RTAUDIO_SINT8 RTAUDIO_SINT16 RTAUDIO_SINT24 : Z.
Variables RTAUDIO_SINT32 RTAUDIO_FLOAT32 RTAUDIO_FLOAT64 : Z.

Definition dtype : list Z :=
  [RTAUDIO_SINT8; RTAUDIO_SINT16; RTAUDIO_SINT24;
   RTAUDIO_SINT32; RTAUDIO_FLOAT32; RTAUDIO_FLOAT64].

Definition dtype_str : list String.string :=
  ["int8"; "int16"; "int24"; "int32"; "float32"; "float64"]%string.

(** One iteration of the loop of [rt_sample_formats_str], at index [i]. *)
Definition rt_sample_formats_step (mask : Z) (out : String.string)
    (i : nat) : String.string :=
  let n := Z.of_nat (length dtype) in
  let m := SizeT.sub n 1 in
  match nth_error dtype i, nth_error dtype_str i with
  | Some format, Some name =>
      if negb (Z.land format mask =? 0) then
        let out := String.append out name in
        if negb (string_empty out) && (Z.of_nat i <? m)
        then String.append out ", "%string
        else out
      else out
  | _, _ => out     (* not reached: i < n *)
  end.

(** [rt_sample_formats_str(mask)] *)
Definition rt_sample_formats_str (mask : Z) : String.string :=
  fold_left (rt_sample_formats_step mask) (seq 0 (length dtype)) String.EmptyString.

(** The names of the formats present in [mask], in table order. *)
Definition formats_present (mask : Z) : list String.string :=
  map snd
      (filter (fun entry => negb (Z.land (fst entry) mask =? 0))
              (combine dtype dtype_str)).

End SampleFormatsModel.

(** ** Words and powers of two *)

Lemma modulus_eq : SizeT.modulus = 18446744073709551616.
Proof. reflexivity. Qed.

Lemma wrap_small z : SizeT.in_range z -> SizeT.wrap z = z.
Proof. unfold SizeT.in_range, SizeT.wrap. intros H. now apply Z.mod_small. Qed.

Lemma wrap_range z : SizeT.in_range (SizeT.wrap z).
Proof.
  unfold SizeT.in_range, SizeT.wrap. apply Z.mod_pos_bound.
  rewrite modulus_eq. lia.
Qed.


Lemma land_pow2_pred k x : 0 <= k -> Z.land x (2 ^ k - 1) = x mod 2 ^ k.
Proof.
  intros Hk. rewrite <- Z.land_ones by assumption.
  now rewrite Z.ones_equiv, <- Z.sub_1_r.
Qed.

Lemma is_pow2_of_pow k : 0 <= k < SizeT.n_bits -> is_pow2 (2 ^ k) = true.
Proof.
  intros Hk. unfold is_pow2.
  assert (Hpos : 0 < 2 ^ k) by (apply Z.pow_pos_nonneg; lia).
  assert (Hlt : 2 ^ k < SizeT.modulus)
    by (unfold SizeT.modulus; apply Z.pow_lt_mono_r; lia).
  destruct (Z.gtb_spec (2 ^ k) 0) as [_ | ?]; [| lia].
  unfold SizeT.sub. rewrite wrap_small by (unfold SizeT.in_range; lia).
  rewrite land_pow2_pred by lia.
  rewrite Z.mod_same by lia. reflexivity.
Qed.

Lemma is_pow2_log2 z :
  SizeT.in_range z -> is_pow2 z = true -> z = 2 ^ Z.log2 z.
Proof.
  unfold is_pow2, SizeT.in_range. intros Hr H.
  destruct (Z.gtb_spec z 0) as [Hpos | ?]; [| discriminate].
  apply Z.eqb_eq in H.
  unfold SizeT.sub in H.
  rewrite wrap_small in H by (unfold SizeT.in_range; lia).
  destruct (Z.log2_spec z) as [Hlo Hhi]; [lia |].
  destruct (Z.eq_dec z (2 ^ Z.log2 z)) as [| Hne]; [assumption | exfalso].
  assert (Hk : Z.log2 (z - 1) = Z.log2 z).
  { apply Z.log2_unique; [apply Z.log2_nonneg | lia]. }
  assert (Hb1 : Z.testbit z (Z.log2 z) = true) by (apply Z.bit_log2; lia).
  assert (Hb2 : Z.testbit (z - 1) (Z.log2 z) = true).
  { rewrite <- Hk. apply Z.bit_log2.
    assert (0 < 2 ^ Z.log2 z) by (apply Z.pow_pos_nonneg; [lia | apply Z.log2_nonneg]).
    lia. }
  assert (Hb : Z.testbit (Z.land z (z - 1)) (Z.log2 z) = true)
    by (rewrite Z.land_spec, Hb1, Hb2; reflexivity).
  rewrite H, Z.bits_0 in Hb. discriminate.
Qed.

Lemma is_pow2_iff z :
  SizeT.in_range z -> (is_pow2 z = true <-> power_of_two z).
Proof.
  intros Hr. split.
  - intros H. exists (Z.log2 z). split; [apply Z.log2_nonneg |].
    now apply is_pow2_log2.
  - intros (k & Hk & ->). apply is_pow2_of_pow. split; [assumption |].
    destruct Hr as [_ Hr]. unfold SizeT.modulus in Hr.
    apply Z.pow_lt_mono_r_iff in Hr; unfold SizeT.n_bits in *; lia.
Qed.

Lemma countl_zero_from_log2 n z :
  0 < z < 2 ^ Z.of_nat n ->
  countl_zero_from n z = Z.of_nat n - 1 - Z.log2 z.
Proof.
  induction n as [| i IH]; intros Hz.
  - simpl in Hz. lia.
  - cbn [countl_zero_from].
    destruct (Z.testbit z (Z.of_nat i)) eqn:Hbit.
    + assert (Z.log2 z < Z.of_nat (S i))
        by (apply Z.log2_lt_pow2; lia).
      assert (~ Z.log2 z < Z.of_nat i).
      { intros Hlt. rewrite Z.bits_above_log2 in Hbit by lia. discriminate. }
      lia.
    + assert (Hlt : z < 2 ^ Z.of_nat i).
      { destruct (Z.lt_ge_cases z (2 ^ Z.of_nat i)) as [| Hge]; [assumption |].
        assert (Hl : Z.log2 z = Z.of_nat i).
        { apply Z.log2_unique; [lia |].
          replace (Z.succ (Z.of_nat i)) with (Z.of_nat (S i)) by lia. lia. }
        rewrite <- Hl, Z.bit_log2 in Hbit by lia. discriminate. }
      rewrite IH by lia. lia.
Qed.

Lemma countl_zero_log2 z :
  0 < z -> SizeT.in_range z ->
  countl_zero z = SizeT.n_bits - 1 - Z.log2 z.
Proof.
  intros Hpos [_ Hlt]. unfold countl_zero.
  rewrite countl_zero_from_log2; [reflexivity |].
  split; [assumption |]. exact Hlt.
Qed.

(** The third branch of [next_pow2], in closed form. *)
Lemma next_pow2_shift z :
  SizeT.in_range z -> 2 < z -> is_pow2 z = false ->
  next_pow2 z = SizeT.wrap (2 ^ (Z.log2 z + 1)).
Proof.
  intros Hr Hz Hp. unfold next_pow2.
  destruct (Z.leb_spec z 2); [lia |]. rewrite Hp.
  rewrite countl_zero_log2 by (assumption || lia).
  unfold SizeT.shl. rewrite Z.shiftl_1_l. f_equal. f_equal. lia.
Qed.

Lemma next_pow2_below_top z :
  SizeT.in_range z -> 2 < z -> z <= 2 ^ 63 -> is_pow2 z = false ->
  next_pow2 z = 2 ^ (Z.log2 z + 1) /\ Z.log2 z + 1 <= 63.
Proof.
  intros Hr Hz Hle Hp.
  assert (Hne : z <> 2 ^ 63).
  { intros ->. rewrite (is_pow2_of_pow 63) in Hp;
      [discriminate | unfold SizeT.n_bits; lia]. }
  assert (Hlog : Z.log2 z < 63) by (apply Z.log2_lt_pow2; lia).
  split; [| lia].
  rewrite next_pow2_shift by assumption.
  apply wrap_small. unfold SizeT.in_range, SizeT.modulus, SizeT.n_bits.
  split; [apply Z.pow_nonneg; lia |].
  pose proof (Z.log2_nonneg z).
  apply Z.pow_lt_mono_r; lia.
Qed.

Lemma not_pow2_false z :
  SizeT.in_range z -> ~ power_of_two z -> is_pow2 z = false.
Proof.
  intros Hr Hn. destruct (is_pow2 z) eqn:E; [| reflexivity].
  apply is_pow2_iff in E; [contradiction | assumption].
Qed.

Lemma next_pow2_cases_below_top requested :
  SizeT.in_range requested -> requested <= 2 ^ 63 ->
  next_pow2_cases requested.
Proof.
  intros Hr Hle. unfold next_pow2_cases. split; [| split].
  - intros H2. unfold next_pow2.
    destruct (Z.leb_spec requested 2); [reflexivity | lia].
  - intros H2 Hp. unfold next_pow2.
    destruct (Z.leb_spec requested 2); [lia |].
    apply is_pow2_iff in Hp; [| assumption]. now rewrite Hp.
  - intros H2 Hn.
    pose proof (not_pow2_false _ Hr Hn) as Hp.
    destruct (next_pow2_below_top requested Hr H2 Hle Hp) as [E _].
    exists (Z.log2 requested). rewrite E. split; [| split; [| split]].
    + split; [apply Z.bit_log2; lia |].
      intros j Hj. apply Z.bits_above_log2; lia.
    + reflexivity.
    + apply Z.log2_spec. lia.
    + intros q (j & Hj & ->) Hq.
      apply Z.pow_le_mono_r; [lia |].
      assert (Z.log2 requested < j); [| lia].
      apply Z.log2_lt_pow2; lia.
Qed.

Lemma next_pow2_covers_below_top requested :
  SizeT.in_range requested -> requested <= 2 ^ 63 ->
  next_pow2_covers requested.
Proof.
  intros Hr Hle. unfold next_pow2_covers.
  destruct (Z.le_gt_cases requested 2) as [H2 | H2].
  - assert (E : next_pow2 requested = 2).
    { unfold next_pow2. destruct (Z.leb_spec requested 2); [reflexivity | lia]. }
    rewrite E. repeat split; try lia. exists 1. split; [lia | reflexivity].
  - destruct (is_pow2 requested) eqn:Hp.
    + assert (E : next_pow2 requested = requested).
      { unfold next_pow2. destruct (Z.leb_spec requested 2); [lia |].
        now rewrite Hp. }
      rewrite E. repeat split; try lia. now apply is_pow2_iff.
    + destruct (next_pow2_below_top requested Hr H2 Hle Hp) as [E Hk].
      rewrite E. repeat split; try lia.
      * exists (Z.log2 requested + 1). split; [| reflexivity].
        pose proof (Z.log2_nonneg requested). lia.
      * apply Z.lt_le_incl, Z.log2_spec. lia.
Qed.

Lemma word_small z : 0 <= z < 18446744073709551616 -> SizeT.wrap z = z.
Proof.
  intros H. apply wrap_small. unfold SizeT.in_range. now rewrite modulus_eq.
Qed.

(** Resolve the wrap-around of word operations whose result is in range. *)
Ltac words :=
  unfold SizeT.add, SizeT.sub, SizeT.mul;
  repeat match goal with
         | |- context [SizeT.wrap ?z] => rewrite (word_small z) by lia
         end.

(** Split on every integer comparison of the goal. *)
Ltac bool_cases :=
  repeat match goal with
         | |- context [Z.leb ?a ?b] => destruct (Z.leb_spec a b)
         | |- context [Z.ltb ?a ?b] => destruct (Z.ltb_spec a b)
         | |- context [Z.gtb ?a ?b] => destruct (Z.gtb_spec a b)
         end;
  cbn [andb].

(** ** [std::copy] and [std::fill] on sequences *)

Section CopyFacts.
Context {DataType : Type}.
Implicit Types (src dst l : list DataType).

Lemma std_copy_some src a b dst off :
  0 <= a <= b -> b <= len src -> 0 <= off -> off + (b - a) <= len dst ->
  exists l, std_copy src a b dst off = Some l.
Proof.
  intros Ha Hb Ho Hd. unfold std_copy.
  replace ((0 <=? a) && (a <=? b) && (b <=? len src) && (0 <=? off)
           && (off + (b - a) <=? len dst)) with true; [eauto |].
  symmetry. rewrite !andb_true_iff, !Z.leb_le. lia.
Qed.

Lemma std_copy_spec src a b dst off l :
  std_copy src a b dst off = Some l ->
  len l = len dst
  /\ forall j, 0 <= j ->
       zth l j = if (off <=? j) && (j <? off + (b - a))
                 then zth src (a + (j - off)) else zth dst j.
Proof.
  unfold std_copy.
  destruct ((0 <=? a) && (a <=? b) && (b <=? len src) && (0 <=? off)
            && (off + (b - a) <=? len dst)) eqn:Hc; [| discriminate].
  intros [= <-].
  rewrite !andb_true_iff, !Z.leb_le in Hc.
  destruct Hc as [[[[Ha Hab] Hb] Ho] Hd].
  unfold len in *. split.
  - rewrite !length_app, !length_firstn, !length_skipn. lia.
  - intros j Hj. unfold zth.
    rewrite !nth_error_app, !length_firstn, !length_skipn.
    rewrite !nth_error_firstn, !nth_error_skipn.
    destruct (Z.leb_spec off j), (Z.ltb_spec j (off + (b - a))); cbn [andb];
      repeat match goal with
             | |- context [Nat.ltb ?x ?y] => destruct (Nat.ltb_spec x y)
             end;
      try lia; f_equal; lia.
Qed.

Lemma std_fill_spec dst n v l :
  std_fill dst n v = Some l ->
  len l = len dst
  /\ firstn (Z.to_nat n) l = repeat v (Z.to_nat n)
  /\ skipn (Z.to_nat n) l = skipn (Z.to_nat n) dst.
Proof.
  unfold std_fill.
  destruct ((0 <=? n) && (n <=? len dst)) eqn:Hc; [| discriminate].
  intros [= <-].
  rewrite andb_true_iff, !Z.leb_le in Hc. destruct Hc as [Hn Hd].
  unfold len in *.
  assert (Hr : length (repeat v (Z.to_nat n)) = Z.to_nat n)
    by apply repeat_length.
  repeat split.
  - rewrite length_app, Hr, length_skipn. lia.
  - rewrite firstn_app, Hr, Nat.sub_diag. cbn [firstn].
    rewrite app_nil_r. apply firstn_all2. lia.
  - rewrite skipn_app, Hr, Nat.sub_diag. cbn [skipn].
    rewrite skipn_all2 by lia. reflexivity.
Qed.

Lemma std_fill_some dst n v :
  0 <= n <= len dst -> exists l, std_fill dst n v = Some l.
Proof.
  intros H. unfold std_fill.
  replace ((0 <=? n) && (n <=? len dst)) with true; [eauto |].
  symmetry. rewrite andb_true_iff, !Z.leb_le. lia.
Qed.

End CopyFacts.

(** ** The ring buffer on well-formed states *)

Section RingFacts.
Context {DataType : Type}.
Variable zero : DataType.
Implicit Types (cb : CircularBuffer DataType) (src dst : list DataType).

Lemma wf_capacity cb :
  wf cb -> exists k, 0 <= k <= 63 /\ capacity cb = 2 ^ k.
Proof.
  intros (Hp & Hr & _). pose proof (is_pow2_log2 _ Hr Hp) as E.
  exists (Z.log2 (capacity cb)). split; [| exact E].
  split; [apply Z.log2_nonneg |].
  destruct Hr as [H0 Hlt].
  assert (0 < capacity cb).
  { rewrite E. apply Z.pow_pos_nonneg; [lia | apply Z.log2_nonneg]. }
  assert (Z.log2 (capacity cb) < 64); [| lia].
  apply Z.log2_lt_pow2; [assumption | exact Hlt].
Qed.

Lemma wf_capacity_bounds cb :
  wf cb -> 1 <= capacity cb <= 9223372036854775808.
Proof.
  intros H. destruct (wf_capacity _ H) as (k & Hk & ->). split.
  - assert (0 < 2 ^ k) by (apply Z.pow_pos_nonneg; lia). lia.
  - change 9223372036854775808 with (2 ^ 63). apply Z.pow_le_mono_r; lia.
Qed.

Lemma wf_mask cb x :
  wf cb -> Z.land x (SizeT.sub (capacity cb) 1) = x mod capacity cb.
Proof.
  intros H. pose proof (wf_capacity_bounds _ H) as HC.
  unfold SizeT.sub. rewrite word_small by lia.
  destruct (wf_capacity _ H) as (k & Hk & ->). apply land_pow2_pred. lia.
Qed.

Lemma wf_heads cb :
  wf cb ->
  0 <= read_head_ cb < capacity cb /\ 0 <= write_head_ cb < capacity cb.
Proof. intros (_ & _ & Hr & Hw). now split. Qed.

(** What [compute_read_available] evaluates to: the distance between the
    heads, whichever of them is ahead. *)
Lemma read_available_abs cb :
  wf cb ->
  get_read_available cb = Z.abs (write_head_ cb - read_head_ cb).
Proof.
  intros H. pose proof (wf_capacity_bounds _ H) as HC.
  destruct (wf_heads _ H) as [Hr Hw].
  unfold get_read_available, compute_read_available.
  destruct (Z.gtb_spec (write_head_ cb) (read_head_ cb)) as [Hgt | Hle].
  - unfold SizeT.sub. rewrite word_small by lia. lia.
  - rewrite wf_mask by assumption.
    words. symmetry. apply (Z.mod_unique _ _ 1); lia.
Qed.

(** The second [assert] of [compute_read_available]. *)
Lemma assert_read_available_lt cb :
  wf cb -> 0 <= get_read_available cb < capacity cb.
Proof.
  intros H. rewrite read_available_abs by assumption.
  destruct (wf_heads _ H). lia.
Qed.

(** The first [assert] of [compute_read_available]. *)
Lemma assert_capacity_is_pow2 cb : wf cb -> is_pow2 (capacity cb) = true.
Proof. now intros (Hp & _). Qed.

Lemma write_available_eq cb :
  wf cb ->
  get_write_available cb = capacity cb - 1 - get_read_available cb.
Proof.
  intros H. pose proof (wf_capacity_bounds _ H) as HC.
  pose proof (assert_read_available_lt _ H) as Hra.
  unfold get_write_available, compute_write_available.
  fold (get_read_available cb).
  words. lia.
Qed.

Lemma write_available_range cb :
  wf cb -> 0 <= get_write_available cb < capacity cb.
Proof.
  intros H. rewrite write_available_eq by assumption.
  pose proof (assert_read_available_lt _ H). lia.
Qed.

(** [enqueue] with the word arithmetic resolved. *)
Lemma enqueue_unfold cb src n :
  wf cb -> 0 <= n ->
  enqueue cb src n =
    let C := capacity cb in
    let w := write_head_ cb in
    let ws := Z.min n (get_write_available cb) in
    buf' <- (if w + ws >? C then
               b1 <- std_copy src 0 (C - w) (buffer_ cb) w ;;
               std_copy src (C - w) ws b1 0
             else std_copy src 0 ws (buffer_ cb) w) ;;
    Some (mkCircularBuffer buf' (read_head_ cb) ((w + ws) mod C), ws).
Proof.
  intros H Hn. pose proof (wf_capacity_bounds _ H) as HC.
  destruct (wf_heads _ H) as [Hr Hw].
  pose proof (write_available_range _ H) as Hwa.
  unfold enqueue. fold (get_write_available cb). cbv zeta.
  rewrite wf_mask by assumption.
  words. reflexivity.
Qed.

(** [dequeue] with the word arithmetic resolved. *)
Lemma dequeue_unfold cb dst n :
  wf cb -> 0 <= n ->
  dequeue cb dst n =
    let C := capacity cb in
    let r := read_head_ cb in
    let rs := Z.min n (get_read_available cb) in
    dst' <- (if r + rs >? C then
               d1 <- std_copy (buffer_ cb) r C dst 0 ;;
               std_copy (buffer_ cb) 0 ((r + rs) mod C) d1 (C - r)
             else std_copy (buffer_ cb) r (r + rs) dst 0) ;;
    Some (mkCircularBuffer (buffer_ cb) ((r + rs) mod C) (write_head_ cb),
          dst', rs).
Proof.
  intros H Hn. pose proof (wf_capacity_bounds _ H) as HC.
  destruct (wf_heads _ H) as [Hr Hw].
  pose proof (assert_read_available_lt _ H) as Hra.
  unfold dequeue. fold (get_read_available cb). cbv zeta.
  rewrite wf_mask by assumption.
  words. reflexivity.
Qed.

Lemma mod_lo C x : 0 <= x < C -> x mod C = x.
Proof. apply Z.mod_small. Qed.

Lemma mod_hi C x : C <= x < 2 * C -> x mod C = x - C.
Proof. intros H. symmetry. apply (Z.mod_unique _ _ 1); lia. Qed.

(** [enqueue] on a well-formed buffer: it cannot leave the storage, it
    returns [min(size, write_available)], moves the write head by that
    much around the ring and stores the head of [src] in ring order. *)
Lemma enqueue_spec cb src n :
  wf cb -> 0 <= n -> Z.min n (get_write_available cb) <= len src ->
  exists cb',
    enqueue cb src n = Some (cb', Z.min n (get_write_available cb))
    /\ wf cb'
    /\ capacity cb' = capacity cb
    /\ read_head_ cb' = read_head_ cb
    /\ write_head_ cb' =
         (write_head_ cb + Z.min n (get_write_available cb)) mod capacity cb
    /\ forall i, 0 <= i < Z.min n (get_write_available cb) ->
                 cell cb' (write_head_ cb + i) = zth src i.
Proof.
  intros H Hn Hsrc. pose proof (wf_capacity_bounds _ H) as HC.
  destruct (wf_heads _ H) as [Hr Hw].
  pose proof (write_available_range _ H) as Hwa.
  rewrite enqueue_unfold by assumption. cbv zeta.
  set (ws := Z.min n (get_write_available cb)) in *.
  assert (Hws : 0 <= ws < capacity cb) by (subst ws; lia).
  assert (Hlen : len (buffer_ cb) = capacity cb) by reflexivity.
  assert (Hmod : 0 <= (write_head_ cb + ws) mod capacity cb < capacity cb)
    by (apply Z.mod_pos_bound; lia).
  destruct H as (Hp & Hrange & _).
  destruct (Z.gtb_spec (write_head_ cb + ws) (capacity cb)) as [Hwrap | Hflat].
  - destruct (std_copy_some src 0 (capacity cb - write_head_ cb)
                (buffer_ cb) (write_head_ cb)) as [b1 E1]; try lia.
    destruct (std_copy_spec _ _ _ _ _ _ E1) as [L1 N1].
    destruct (std_copy_some src (capacity cb - write_head_ cb) ws b1 0)
      as [b2 E2]; try lia.
    destruct (std_copy_spec _ _ _ _ _ _ E2) as [L2 N2].
    rewrite E1. cbn [bind]. rewrite E2. cbn [bind].
    eexists. split; [reflexivity |].
    match goal with |- wf ?c /\ _ => set (cb' := c) end.
    assert (Hcap : capacity cb' = capacity cb) by (unfold capacity; cbn; lia).
    split; [| split; [assumption | split; [reflexivity | split; [reflexivity |]]]].
    { unfold wf. rewrite Hcap. unfold cb'. cbn [read_head_ write_head_].
      split; [assumption | split; [assumption | split; lia]]. }
    intros i Hi. unfold cell. rewrite Hcap. cbn [cb' buffer_].
    destruct (Z.lt_ge_cases (write_head_ cb + i) (capacity cb)) as [Hlo | Hhi].
    + rewrite mod_lo by lia. rewrite N2, N1 by lia. bool_cases; try lia.
      f_equal. lia.
    + rewrite mod_hi by lia. rewrite N2 by lia. bool_cases; try lia.
      f_equal. lia.
  - destruct (std_copy_some src 0 ws (buffer_ cb) (write_head_ cb))
      as [b1 E1]; try lia.
    destruct (std_copy_spec _ _ _ _ _ _ E1) as [L1 N1].
    rewrite E1. cbn [bind].
    eexists. split; [reflexivity |].
    match goal with |- wf ?c /\ _ => set (cb' := c) end.
    assert (Hcap : capacity cb' = capacity cb) by (unfold capacity; cbn; lia).
    split; [| split; [assumption | split; [reflexivity | split; [reflexivity |]]]].
    { unfold wf. rewrite Hcap. unfold cb'. cbn [read_head_ write_head_].
      split; [assumption | split; [assumption | split; lia]]. }
    intros i Hi. unfold cell. rewrite Hcap. cbn [cb' buffer_].
    rewrite mod_lo by lia. rewrite N1 by lia.
    bool_cases; try lia. f_equal. lia.
Qed.

(** [dequeue] on a well-formed buffer, the mirror image. *)
Lemma dequeue_spec cb dst n :
  wf cb -> 0 <= n -> Z.min n (get_read_available cb) <= len dst ->
  exists cb' dst',
    dequeue cb dst n = Some (cb', dst', Z.min n (get_read_available cb))
    /\ wf cb'
    /\ buffer_ cb' = buffer_ cb
    /\ write_head_ cb' = write_head_ cb
    /\ read_head_ cb' =
         (read_head_ cb + Z.min n (get_read_available cb)) mod capacity cb
    /\ len dst' = len dst
    /\ (forall i, 0 <= i < Z.min n (get_read_available cb) ->
                  zth dst' i = cell cb (read_head_ cb + i))
    /\ (forall i, Z.min n (get_read_available cb) <= i ->
                  zth dst' i = zth dst i).
Proof.
  intros H Hn Hdst. pose proof (wf_capacity_bounds _ H) as HC.
  destruct (wf_heads _ H) as [Hr Hw].
  pose proof (assert_read_available_lt _ H) as Hra.
  rewrite dequeue_unfold by assumption. cbv zeta.
  set (rs := Z.min n (get_read_available cb)) in *.
  assert (Hrs : 0 <= rs < capacity cb) by (subst rs; lia).
  assert (Hlen : len (buffer_ cb) = capacity cb) by reflexivity.
  assert (Hmod : 0 <= (read_head_ cb + rs) mod capacity cb < capacity cb)
    by (apply Z.mod_pos_bound; lia).
  destruct H as (Hp & Hrange & _).
  destruct (Z.gtb_spec (read_head_ cb + rs) (capacity cb)) as [Hwrap | Hflat].
  - assert (Hm : (read_head_ cb + rs) mod capacity cb
                 = read_head_ cb + rs - capacity cb) by (apply mod_hi; lia).
    destruct (std_copy_some (buffer_ cb) (read_head_ cb) (capacity cb) dst 0)
      as [d1 E1]; try lia.
    destruct (std_copy_spec _ _ _ _ _ _ E1) as [L1 N1].
    destruct (std_copy_some (buffer_ cb) 0
                ((read_head_ cb + rs) mod capacity cb) d1
                (capacity cb - read_head_ cb)) as [d2 E2]; try lia.
    destruct (std_copy_spec _ _ _ _ _ _ E2) as [L2 N2].
    rewrite E1. cbn [bind]. rewrite E2. cbn [bind].
    eexists. eexists. split; [reflexivity |].
    split; [| split; [reflexivity | split; [reflexivity | split;
      [reflexivity | split; [lia | split]]]]].
    + unfold wf, capacity. cbn [buffer_ read_head_ write_head_].
      fold (capacity cb). split; [assumption | split; [assumption | split; lia]].
    + intros i Hi. unfold cell. rewrite N2, Hm by lia.
      destruct (Z.lt_ge_cases (read_head_ cb + i) (capacity cb)) as [Hlo | Hhi].
      * rewrite mod_lo by lia. rewrite N1 by lia. bool_cases; try lia.
        f_equal. lia.
      * rewrite mod_hi by lia. bool_cases; try lia. f_equal. lia.
    + intros i Hi. rewrite N2, N1, Hm by lia. bool_cases; try lia.
      reflexivity.
  - destruct (std_copy_some (buffer_ cb) (read_head_ cb)
                (read_head_ cb + rs) dst 0) as [d1 E1]; try lia.
    destruct (std_copy_spec _ _ _ _ _ _ E1) as [L1 N1].
    rewrite E1. cbn [bind].
    eexists. eexists. split; [reflexivity |].
    split; [| split; [reflexivity | split; [reflexivity | split;
      [reflexivity | split; [lia | split]]]]].
    + unfold wf, capacity. cbn [buffer_ read_head_ write_head_].
      fold (capacity cb). split; [assumption | split; [assumption | split; lia]].
    + intros i Hi. unfold cell. rewrite N1 by lia. rewrite mod_lo by lia.
      bool_cases; try lia. f_equal. lia.
    + intros i Hi. rewrite N1 by lia. bool_cases; try lia. reflexivity.
Qed.

(** From an empty state, [k] samples that do not reach the end of the
    storage come back whole and in order. *)
Lemma roundtrip_without_wrap cb (values : list DataType) :
  wf cb -> read_head_ cb = write_head_ cb ->
  0 < len values -> write_head_ cb + len values < capacity cb ->
  roundtrip zero cb values = Some (values, len values).
Proof.
  intros H Hempty Hk Hflat.
  destruct (wf_heads _ H) as [Hr Hw].
  assert (Hra : get_read_available cb = 0)
    by (rewrite read_available_abs by assumption; lia).
  assert (Hwa : get_write_available cb = capacity cb - 1)
    by (rewrite write_available_eq by assumption; lia).
  destruct (enqueue_spec cb values (len values) H) as
    (cb1 & E1 & H1 & Hcap1 & Hr1 & Hw1 & Hcells); try lia.
  rewrite Z.min_l in * by lia. rewrite mod_lo in Hw1 by lia.
  assert (Hra1 : get_read_available cb1 = len values)
    by (rewrite read_available_abs by assumption; lia).
  destruct (dequeue_spec cb1 (repeat zero (length values)) (len values) H1)
    as (cb2 & dst & E2 & _ & _ & _ & _ & Hlen & Hdst & _).
  { lia. }
  { unfold len at 2. rewrite repeat_length. fold (len values). lia. }
  rewrite Hra1, Z.min_id in *.
  unfold roundtrip. cbv zeta. rewrite E1. cbn [bind]. rewrite E2. cbn [bind].
  do 2 f_equal. apply nth_error_ext. intros i.
  unfold len in Hlen. rewrite repeat_length in Hlen.
  destruct (Nat.lt_ge_cases i (length values)) as [Hi | Hi].
  - specialize (Hdst (Z.of_nat i)). unfold zth in Hdst at 1.
    rewrite Nat2Z.id in Hdst. rewrite Hdst by (unfold len; lia).
    rewrite Hr1, Hempty, Hcells by (unfold len; lia).
    unfold zth. now rewrite Nat2Z.id.
  - transitivity (@None DataType); [| symmetry]; apply nth_error_None; lia.
Qed.


End RingFacts.

(** ** Construction and reachable states *)

Section Reachability.
Context {DataType : Type}.
Variable zero : DataType.
Implicit Types (cb : CircularBuffer DataType) (src dst : list DataType).

Lemma next_pow2_nonneg z : 0 <= next_pow2 z.
Proof.
  unfold next_pow2. destruct (Z.leb_spec z 2); [lia |].
  destruct (is_pow2 z); [lia |]. apply wrap_range.
Qed.

Lemma new_capacity requested :
  capacity (CircularBuffer_new zero requested) = next_pow2 requested.
Proof.
  unfold capacity, CircularBuffer_new, len. cbn [buffer_].
  rewrite repeat_length. pose proof (next_pow2_nonneg requested). lia.
Qed.

Lemma next_pow2_is_pow2 requested :
  SizeT.in_range requested -> 2 <= next_pow2 requested ->
  is_pow2 (next_pow2 requested) = true.
Proof.
  intros Hr. unfold next_pow2.
  destruct (Z.leb_spec requested 2) as [| H2]; [reflexivity |].
  destruct (is_pow2 requested) eqn:Hp; [intros _; exact Hp |].
  rewrite countl_zero_log2 by (assumption || lia).
  unfold SizeT.shl. rewrite Z.shiftl_1_l.
  replace (SizeT.n_bits - 1 - (SizeT.n_bits - 1 - Z.log2 requested) + 1)
    with (Z.log2 requested + 1) by lia.
  assert (Hlog : 0 <= Z.log2 requested < 64).
  { split; [apply Z.log2_nonneg |]. apply Z.log2_lt_pow2; [lia | apply Hr]. }
  destruct (Z.eq_dec (Z.log2 requested) 63) as [-> | Hne].
  - vm_compute. intros H. now contradiction H.
  - intros _. rewrite word_small.
    + apply is_pow2_of_pow. unfold SizeT.n_bits. lia.
    + split; [apply Z.pow_nonneg; lia |].
      change 18446744073709551616 with (2 ^ 64). apply Z.pow_lt_mono_r; lia.
Qed.

Lemma next_pow2_in_range requested :
  SizeT.in_range requested -> SizeT.in_range (next_pow2 requested).
Proof.
  intros Hr. unfold next_pow2.
  destruct (Z.leb_spec requested 2); [vm_compute; split; congruence |].
  destruct (is_pow2 requested); [assumption | apply wrap_range].
Qed.

Lemma new_wf requested :
  SizeT.in_range requested ->
  2 <= capacity (CircularBuffer_new zero requested) ->
  wf (CircularBuffer_new zero requested).
Proof.
  intros Hr H2. unfold wf. rewrite new_capacity in *.
  cbn [CircularBuffer_new read_head_ write_head_].
  split; [now apply next_pow2_is_pow2 |].
  split; [now apply next_pow2_in_range | lia].
Qed.

Lemma new_capacity_ge2 requested :
  SizeT.in_range requested -> requested <= 2 ^ 63 ->
  2 <= capacity (CircularBuffer_new zero requested).
Proof.
  intros Hr Hle. rewrite new_capacity.
  destruct (next_pow2_covers_below_top _ Hr Hle) as (_ & Hge & H2).
  destruct (Z.lt_ge_cases requested 2); [rewrite H2 by assumption |]; lia.
Qed.

(** Whatever the arguments, a call that returns leaves the storage size
    alone and puts the head it moves through the mask. *)
Lemma enqueue_shape cb src n cb' ret :
  enqueue cb src n = Some (cb', ret) ->
  capacity cb' = capacity cb
  /\ read_head_ cb' = read_head_ cb
  /\ (exists x, write_head_ cb' = Z.land x (SizeT.sub (capacity cb) 1))
  /\ ret = Z.min n (get_write_available cb).
Proof.
  unfold enqueue. cbv zeta.
  match goal with
  | |- bind ?m _ = _ -> _ => destruct m as [buf' |] eqn:E
  end; cbn [bind]; [| discriminate].
  intros [= <- <-]. cbn [read_head_ write_head_].
  split; [| split; [reflexivity | split; [eauto | reflexivity]]].
  unfold capacity. cbn [buffer_].
  match type of E with
  | (if ?c then _ else _) = _ => destruct c
  end.
  - destruct (std_copy src 0 _ (buffer_ cb) _) as [b1 |] eqn:E1;
      cbn [bind] in E; [| discriminate].
    apply std_copy_spec in E as [L2 _]. apply std_copy_spec in E1 as [L1 _].
    lia.
  - apply std_copy_spec in E as [L1 _]. exact L1.
Qed.

Lemma dequeue_shape cb dst n cb' dst' ret :
  dequeue cb dst n = Some (cb', dst', ret) ->
  buffer_ cb' = buffer_ cb
  /\ write_head_ cb' = write_head_ cb
  /\ (exists x, read_head_ cb' = Z.land x (SizeT.sub (capacity cb) 1))
  /\ ret = Z.min n (get_read_available cb).
Proof.
  unfold dequeue. cbv zeta.
  match goal with
  | |- bind ?m _ = _ -> _ => destruct m as [d |]
  end; cbn [bind]; [| discriminate].
  intros [= <- <- <-]. cbn [buffer_ read_head_ write_head_]. eauto 6.
Qed.

Lemma do_call_capacity cb c cb' :
  do_call cb c = Some cb' -> capacity cb' = capacity cb.
Proof.
  destruct c as [src n | dst n]; cbn [do_call].
  - destruct (enqueue cb src n) as [[c1 ret] |] eqn:E; cbn [bind];
      [| discriminate].
    intros [= <-]. now apply enqueue_shape in E.
  - destruct (dequeue cb dst n) as [[[c1 d] ret] |] eqn:E; cbn [bind];
      [| discriminate].
    intros [= <-]. apply dequeue_shape in E as (Hb & _).
    unfold capacity. now rewrite Hb.
Qed.

Lemma do_call_wf cb c cb' : wf cb -> do_call cb c = Some cb' -> wf cb'.
Proof.
  intros H Hc. pose proof (do_call_capacity _ _ _ Hc) as Hcap.
  pose proof (wf_capacity_bounds _ H) as HC.
  destruct (wf_heads _ H) as [Hr Hw].
  destruct H as (Hp & Hrange & _).
  unfold wf. rewrite Hcap.
  split; [assumption | split; [assumption |]].
  assert (Hwf : wf cb) by (unfold wf; auto).
  destruct c as [src n | dst n]; cbn [do_call] in Hc.
  - destruct (enqueue cb src n) as [[c1 ret] |] eqn:E; cbn [bind] in Hc;
      [| discriminate].
    injection Hc as <-.
    apply enqueue_shape in E as (_ & -> & (x & ->) & _).
    rewrite wf_mask by assumption.
    split; [assumption | apply Z.mod_pos_bound; lia].
  - destruct (dequeue cb dst n) as [[[c1 d] ret] |] eqn:E; cbn [bind] in Hc;
      [| discriminate].
    injection Hc as <-.
    apply dequeue_shape in E as (_ & -> & (x & ->) & _).
    rewrite wf_mask by assumption.
    split; [apply Z.mod_pos_bound; lia | assumption].
Qed.

Lemma reachable_capacity requested cb :
  reachable zero requested cb ->
  capacity cb = capacity (CircularBuffer_new zero requested).
Proof.
  induction 1 as [| cb c cb' _ IH Hc]; [reflexivity |].
  rewrite <- IH. now apply do_call_capacity in Hc.
Qed.

Lemma reachable_wf requested cb :
  SizeT.in_range requested ->
  2 <= capacity (CircularBuffer_new zero requested) ->
  reachable zero requested cb -> wf cb.
Proof.
  intros Hr H2. induction 1 as [| cb c cb' _ IH Hc].
  - now apply new_wf.
  - eapply do_call_wf; eassumption.
Qed.

Lemma do_call_total cb c :
  wf cb -> call_ok c -> exists cb', do_call cb c = Some cb'.
Proof.
  intros H Hok. destruct c as [src n | dst n]; cbn [do_call call_ok] in *.
  - destruct (enqueue_spec cb src n) as (cb' & E & _); try lia; try assumption.
    rewrite E. cbn [bind]. eauto.
  - destruct (dequeue_spec cb dst n) as (cb' & d & E & _);
      try lia; try assumption.
    rewrite E. cbn [bind]. eauto.
Qed.

Lemma run_calls_total cb cs :
  wf cb -> Forall call_ok cs ->
  exists cb', run_calls cb cs = Some cb' /\ wf cb'
              /\ capacity cb' = capacity cb.
Proof.
  intros H Hok. revert cb H.
  induction Hok as [| c cs Hc _ IH]; intros cb H; cbn [run_calls].
  - eauto.
  - destruct (do_call_total cb c H Hc) as [cb1 E1]. rewrite E1. cbn [bind].
    destruct (IH cb1 (do_call_wf _ _ _ H E1)) as (cb' & E & Hwf & Hcap).
    exists cb'. split; [assumption | split; [assumption |]].
    rewrite Hcap. now apply do_call_capacity in E1.
Qed.

End Reachability.

(** ** The claims about the ring buffer *)

(** Decide a closed proposition built from evaluated comparisons. *)
Ltac by_evaluation :=
  vm_compute; repeat split;
  solve [reflexivity | discriminate | intro; discriminate].

Lemma fresh_ring_wf : wf fresh_ring.
Proof. by_evaluation. Qed.

Lemma drained_ring_wf : wf drained_ring.
Proof. by_evaluation. Qed.

Lemma drained_ring_reachable : reachable 0 10 drained_ring.
Proof.
  apply reach_call with
    (cb := mkCircularBuffer (repeat 7 10 ++ repeat 0 6) 0 10)
    (c := Dequeue (repeat 0 10) 10); [| reflexivity].
  apply reach_call with (cb := fresh_ring) (c := Enqueue (repeat 7 10) 10);
    [apply reach_new | reflexivity].
Qed.

(** Scenario A of the specification: a request of 10 gives a capacity of
    16 with 15 free slots; 15 samples go in and come back in order, and the
    buffer is empty again. *)
Example scenario_A :
  capacity fresh_ring = 16
  /\ get_write_available fresh_ring = 15
  /\ exists cb1 cb2,
       enqueue fresh_ring (map Z.of_nat (seq 1 15)) 15 = Some (cb1, 15)
       /\ get_read_available cb1 = 15
       /\ dequeue cb1 (repeat 0 15) 15
          = Some (cb2, map Z.of_nat (seq 1 15), 15)
       /\ get_read_available cb2 = 0
       /\ get_write_available cb2 = 15.
Proof.
  split; [reflexivity |]. split; [reflexivity |].
  do 2 eexists. repeat split; reflexivity.
Qed.







(** C2.  On every well-formed buffer, [enqueue(src, n)] returns
    [min(n, write_available())], moves [write_head] forward by exactly that
    amount modulo the capacity, leaves [read_head] alone, and the storage
    cells from the old write head on hold the first returned elements of
    [src] in order; with [write_available() == 0] it returns 0 and
    [write_head] keeps its value. *)
Theorem enqueue_contract {DataType : Type}
    (cb : CircularBuffer DataType) (src : list DataType) (n : Z) :
  wf cb -> 0 <= n -> Z.min n (get_write_available cb) <= len src ->
  exists cb',
    enqueue cb src n = Some (cb', Z.min n (get_write_available cb))
    /\ write_head_ cb' =
         (write_head_ cb + Z.min n (get_write_available cb)) mod capacity cb
    /\ read_head_ cb' = read_head_ cb
    /\ capacity cb' = capacity cb
    /\ (forall i, 0 <= i < Z.min n (get_write_available cb) ->
                  cell cb' (write_head_ cb + i) = zth src i)
    /\ (get_write_available cb = 0 ->
        Z.min n (get_write_available cb) = 0
        /\ write_head_ cb' = write_head_ cb).
Proof.
  intros H Hn Hsrc.
  destruct (enqueue_spec cb src n H Hn Hsrc)
    as (cb' & E & _ & Hcap & Hr & Hw & Hcells).
  exists cb'. repeat (split; [assumption |]).
  intros H0. rewrite Hw, H0.
  replace (Z.min n 0) with 0 by lia. split; [reflexivity |].
  rewrite Z.add_0_r. apply Z.mod_small. now destruct (wf_heads _ H).
Qed.

Lemma enqueue_contract_witness :
  exists cb',
    enqueue drained_ring ten_samples 10 = Some (cb', 10)
    /\ write_head_ cb' = 4.
Proof.
  destruct (enqueue_contract drained_ring ten_samples 10)
    as (cb' & E & Hw & _).
  - exact drained_ring_wf.
  - lia.
  - vm_compute. discriminate.
  - exists cb'. split; [exact E | exact Hw].
Defined.

(** C4.  In every state reachable from the constructor by producer and
    consumer calls, [read_available() + write_available() == capacity - 1]
    as the program computes it; when the capacity is at least 2 neither
    side wraps, so the equation also holds between the exact numbers. *)
Theorem available_sum_invariant {DataType : Type} (zero : DataType)
    (requested : Z) (cb : CircularBuffer DataType) :
  SizeT.in_range requested ->
  reachable zero requested cb ->
  SizeT.add (get_read_available cb) (get_write_available cb)
    = SizeT.sub (capacity cb) 1
  /\ (2 <= capacity cb ->
      0 <= get_read_available cb /\ 0 <= get_write_available cb
      /\ get_read_available cb + get_write_available cb = capacity cb - 1).
Proof.
  intros Hr Hreach. split.
  - unfold get_write_available, compute_write_available.
    fold (get_read_available cb).
    unfold SizeT.add, SizeT.sub, SizeT.wrap.
    rewrite Zminus_mod_idemp_l, Zplus_mod_idemp_r. f_equal. lia.
  - intros H2. rewrite (reachable_capacity zero requested cb Hreach) in H2.
    pose proof (reachable_wf zero requested cb Hr H2 Hreach) as H.
    pose proof (assert_read_available_lt _ H).
    rewrite write_available_eq by assumption. lia.
Qed.

Lemma available_sum_invariant_witness :
  get_read_available drained_ring + get_write_available drained_ring
    = capacity drained_ring - 1.
Proof.
  apply (available_sum_invariant 0 10 drained_ring).
  - vm_compute. split; [discriminate | reflexivity].
  - exact drained_ring_reachable.
  - vm_compute. discriminate.
Defined.

(** C10.  For a buffer constructed from any request that gives it a
    capacity of at least 2, every sequence of [enqueue] and [dequeue] calls
    whose pointer arguments cover the requested counts runs without any
    copy leaving the storage ([run_calls] is defined), the capacity never
    changes, and both heads end inside [0, capacity). *)
Theorem heads_and_copies_stay_in_bounds {DataType : Type} (zero : DataType)
    (requested : Z) (cs : list (call DataType)) :
  SizeT.in_range requested ->
  2 <= capacity (CircularBuffer_new zero requested) ->
  Forall call_ok cs ->
  exists cb',
    run_calls (CircularBuffer_new zero requested) cs = Some cb'
    /\ capacity cb' = capacity (CircularBuffer_new zero requested)
    /\ len (buffer_ cb') = capacity cb'
    /\ 0 <= read_head_ cb' < capacity cb'
    /\ 0 <= write_head_ cb' < capacity cb'.
Proof.
  intros Hr H2 Hok.
  destruct (run_calls_total (CircularBuffer_new zero requested) cs)
    as (cb' & E & Hwf & Hcap); [now apply new_wf | assumption |].
  exists cb'. destruct (wf_heads _ Hwf). repeat split; try assumption; lia.
Qed.

Lemma heads_and_copies_stay_in_bounds_witness :
  exists cb',
    run_calls fresh_ring (fill_and_drain ++ [Enqueue ten_samples 10])
      = Some cb'
    /\ 0 <= write_head_ cb' < 16.
Proof.
  destruct (heads_and_copies_stay_in_bounds 0 10
              (fill_and_drain ++ [Enqueue ten_samples 10]))
    as (cb' & E & Hcap & _ & _ & Hw).
  - vm_compute. split; [discriminate | reflexivity].
  - vm_compute. discriminate.
  - repeat constructor; vm_compute; discriminate.
  - exists cb'. split; [exact E |]. rewrite Hcap in Hw. exact Hw.
Defined.

(** C1 fails on the code.  From the empty state with both heads at 10 of
    16, reached by ten samples in and ten out, ten fresh samples are all
    accepted ([enqueue] returns 10) but the [dequeue] that follows hands
    back only the first six: once the write head has wrapped below the read
    head, [compute_read_available] measures the distance the wrong way
    round. *)
Theorem roundtrip_across_wrap_loses_samples :
  reachable 0 10 drained_ring
  /\ capacity drained_ring = 16
  /\ get_read_available drained_ring = 0
  /\ (exists cb1, enqueue drained_ring ten_samples 10 = Some (cb1, 10)
                  /\ get_read_available cb1 = 6)
  /\ roundtrip 0 drained_ring ten_samples
     = Some ([1; 2; 3; 4; 5; 6; 0; 0; 0; 0], 6)
  /\ roundtrip 0 drained_ring ten_samples <> Some (ten_samples, 10).
Proof.
  split; [exact drained_ring_reachable |].
  split; [reflexivity |]. split; [reflexivity |].
  split; [eexists; split; reflexivity |].
  split; [reflexivity | vm_compute; discriminate].
Qed.

(** ** The streaming loops *)

Section StreamFacts.
Context {DataType : Type}.
Variable zero : DataType.
Implicit Types (tr : list (event DataType)).

(** C3, as amended.  On every playback callback with frame count [f] and
    channel count [c] whose output buffer has room for [f * c] samples: if
    [read_available()] is strictly greater than [f * c], exactly [f * c]
    samples are dequeued into the output buffer; otherwise the first
    [f * c] samples of the output are set to zero and the ring buffer,
    [read_head] included, is left as it was. *)
Theorem callback_dequeues_or_fills_silence
    (p : PlaybackProcess DataType) (output : list DataType)
    (frames : Z) (try_lock : bool) :
  wf (pb_circ_buffer_ p) ->
  SizeT.mul frames (to_size_t (pb_channels p)) <= len output ->
  callback_claim zero Z.gtb p output frames try_lock.
Proof.
  intros H Hout. unfold callback_claim, read_frames. cbv zeta.
  set (n := SizeT.mul frames (to_size_t (pb_channels p))) in *.
  assert (Hn : 0 <= n) by apply wrap_range.
  destruct (Z.gtb_spec (get_read_available (pb_circ_buffer_ p)) n)
    as [Hgt | Hle].
  - destruct (dequeue_spec (pb_circ_buffer_ p) output n H Hn)
      as (cb' & out' & E & _); [lia |].
    rewrite Z.min_l in E by lia. rewrite E. cbn [bind].
    destruct ((pb_io_counter_ p >=? SizeT.mul PLAY_BUFFER_FACTOR 3 / 4)
              && try_lock);
      do 3 eexists; (split; [reflexivity | reflexivity]).
  - destruct (std_fill_some output n zero) as [out' E]; [lia |].
    rewrite E. cbn [bind]. apply std_fill_spec in E as (_ & Hz & _).
    destruct ((pb_io_counter_ p >=? SizeT.mul PLAY_BUFFER_FACTOR 3 / 4)
              && try_lock);
      do 3 eexists; (split; [reflexivity | split; [exact Hz | reflexivity]]).
Qed.

(** Where an event sits in a trace that starts with a known event. *)
Lemma trace_head_split (e x : event DataType) tr1 tr2 tr :
  x :: tr = tr1 ++ e :: tr2 ->
  (tr1 = [] /\ x = e /\ tr = tr2)
  \/ exists tr1', tr1 = x :: tr1' /\ tr = tr1' ++ e :: tr2.
Proof.
  destruct tr1 as [| y tr1']; cbn [app]; intros [= -> ->]; eauto.
Qed.

Lemma trace_last_split (e x : event DataType) tr tr1 tr2 :
  tr ++ [x] = tr1 ++ e :: tr2 ->
  (tr2 = [] /\ x = e /\ tr = tr1)
  \/ exists tr2', tr2 = tr2' ++ [x] /\ tr = tr1 ++ e :: tr2'.
Proof.
  destruct tr2 as [| y tr2' _] using rev_ind; intros E.
  - apply app_inj_tail in E as [-> ->]. auto.
  - right. exists tr2'.
    change (tr ++ [x] = tr1 ++ (e :: tr2') ++ [y]) in E.
    rewrite app_assoc in E. apply app_inj_tail in E as [-> ->]. auto.
Qed.

(** *** Capture *)

(** The loop of [RecordProcess::start] never reaches a wait: the only
    [wait] of the function stands after the loop. *)
Lemma record_loop_never_waits buffer_len frames sched :
  forall p p' tr st,
    record_loop buffer_len frames p sched = Some (p', tr, st) ->
    ~ In (EvWait (DataType := DataType)) tr.
Proof.
  induction sched as [| t sched IH]; intros p p' tr st Hrun.
  - injection Hrun as <- <- <-. intros [].
  - cbn [record_loop] in Hrun.
    destruct (rec_callbacks p (rt_callbacks t)) as [p1 |];
      cbn [bind] in Hrun; [| discriminate].
    destruct (get_read_available (rc_circ_buffer_ p1) >? to_size_t buffer_len).
    + destruct (rec_callbacks p1 (rt_callbacks_during t)) as [p1' |];
        cbn [bind] in Hrun; [| discriminate].
      destruct (dequeue _ _ _) as [[[circ buffer] returned] |];
        cbn [bind] in Hrun; [| discriminate].
      destruct (rt_writef_frames t <? frames).
      * injection Hrun as <- <- <-. cbn. intuition discriminate.
      * destruct (record_loop _ _ _ sched) as [[[p2 tr'] st'] |] eqn:Erec;
          cbn [bind] in Hrun; [| discriminate].
        injection Hrun as <- <- <-. apply IH in Erec.
        cbn. intuition discriminate.
    + destruct (record_loop _ _ _ sched) as [[[p2 tr'] st'] |] eqn:Erec;
        cbn [bind] in Hrun; [| discriminate].
      injection Hrun as <- <- <-. apply IH in Erec.
      cbn. intuition discriminate.
Qed.

Lemma record_loop_short_write buffer_len frames sched :
  forall p p' tr st,
    record_loop buffer_len frames p sched = Some (p', tr, st) ->
    forall tr1 buffer requested written tr2,
      tr = tr1 ++ EvWrite buffer requested written :: tr2 ->
      written < requested ->
      st = Exited /\ tr2 = [EvSync].
Proof.
  induction sched as [| t sched IH];
    intros p p' tr st Hrun tr1 buf req got tr2 Htr Hlt.
  - injection Hrun as <- <- <-. destruct tr1; discriminate.
  - cbn [record_loop] in Hrun.
    destruct (rec_callbacks p (rt_callbacks t)) as [p1 |];
      cbn [bind] in Hrun; [| discriminate].
    destruct (get_read_available (rc_circ_buffer_ p1) >? to_size_t buffer_len).
    + destruct (rec_callbacks p1 (rt_callbacks_during t)) as [p1' |];
        cbn [bind] in Hrun; [| discriminate].
      destruct (dequeue _ _ _) as [[[circ buffer] returned] |];
        cbn [bind] in Hrun; [| discriminate].
      destruct (Z.ltb_spec (rt_writef_frames t) frames) as [Hshort | Hfull].
      * injection Hrun as <- <- <-. cbn [app] in Htr.
        apply trace_head_split in Htr
          as [(_ & [=] & _) | (t1 & -> & Htr)].
        apply trace_head_split in Htr
          as [(_ & [=] & _) | (t2 & -> & Htr)].
        apply trace_head_split in Htr
          as [(_ & _ & <-) | (t3 & -> & Htr)]; [auto |].
        apply trace_head_split in Htr
          as [(_ & [=] & _) | (t4 & -> & Htr)].
        destruct t4; discriminate.
      * destruct (record_loop _ _ _ sched) as [[[p2 tr'] st'] |] eqn:Erec;
          cbn [bind] in Hrun; [| discriminate].
        injection Hrun as <- <- <-. cbn [app] in Htr.
        apply trace_head_split in Htr
          as [(_ & [=] & _) | (t1 & -> & Htr)].
        apply trace_head_split in Htr
          as [(_ & [=] & _) | (t2 & -> & Htr)].
        apply trace_head_split in Htr
          as [(_ & [= <- <- <-] & _) | (t3 & -> & Htr)]; [lia |].
        apply trace_head_split in Htr
          as [(_ & [=] & _) | (t4 & -> & Htr)].
        eapply IH; eassumption.
    + destruct (record_loop _ _ _ sched) as [[[p2 tr'] st'] |] eqn:Erec;
        cbn [bind] in Hrun; [| discriminate].
      injection Hrun as <- <- <-.
      apply trace_head_split in Htr
        as [(_ & [=] & _) | (t1 & -> & Htr)].
      eapply IH; eassumption.
Qed.

(** C8.  In a run of [RecordProcess::start], whatever the schedule holds
    after it, a file write that transfers fewer frames than requested is
    followed only by the [writeSync] of the same iteration and by the
    [wait] that stands after the loop: the loop has been left and no
    further write is made. *)
Theorem capture_short_write_ends_loop
    (p p' : RecordProcess DataType) (sched : list (rec_turn DataType))
    tr st tr1 (buffer : list DataType) (requested written : Z) tr2 :
  record_start p sched = Some (p', tr, st) ->
  tr = tr1 ++ EvWrite buffer requested written :: tr2 ->
  written < requested ->
  st = Exited /\ tr2 = [EvSync; EvWait].
Proof.
  unfold record_start. intros Hrun Htr Hlt.
  destruct (rc_channels p =? 0); [discriminate |].
  destruct (record_loop _ _ p sched) as [[[p1 tr'] st'] |] eqn:Erec;
    cbn [bind] in Hrun; [| discriminate].
  destruct st'; injection Hrun as <- <- <-.
  - destruct (record_loop_short_write _ _ _ _ _ _ _ Erec _ _ _ _ _ Htr Hlt)
      as [[=] _].
  - apply trace_last_split in Htr
      as [(_ & [=] & _) | (t2 & -> & Htr)].
    destruct (record_loop_short_write _ _ _ _ _ _ _ Erec _ _ _ _ _ Htr Hlt)
      as [_ ->].
    auto.
Qed.

(** *** Playback *)





(** *** The runs are defined *)

(** With callers that keep the callback contract, neither loop ever leaves
    a buffer: every schedule has a run. *)

Lemma write_frames_defined (p : RecordProcess DataType) input n try_lock :
  wf (rc_circ_buffer_ p) ->
  callback_ok (rc_channels p) (input, n, try_lock) ->
  exists p' notified,
    write_frames p input n try_lock = Some (p', notified)
    /\ wf (rc_circ_buffer_ p')
    /\ rc_channels p' = rc_channels p
    /\ rc_file_io_buffer_ p' = rc_file_io_buffer_ p.
Proof.
  intros H Hok. cbn [callback_ok] in Hok. unfold write_frames. cbv zeta.
  set (size := SizeT.mul n (to_size_t (rc_channels p))) in *.
  assert (Hsize : 0 <= size) by apply wrap_range.
  destruct (enqueue_spec (rc_circ_buffer_ p) input size H Hsize)
    as (cb' & E & H' & _); [lia |].
  rewrite E. cbn [bind].
  destruct ((rc_io_counter_ p >=? REC_BUFFER_FACTOR) && try_lock);
    do 2 eexists; (split; [reflexivity | cbn; auto]).
Qed.

Lemma rec_callbacks_defined cs :
  forall p : RecordProcess DataType,
    wf (rc_circ_buffer_ p) ->
    Forall (callback_ok (rc_channels p)) cs ->
    exists p',
      rec_callbacks p cs = Some p'
      /\ wf (rc_circ_buffer_ p')
      /\ rc_channels p' = rc_channels p
      /\ rc_file_io_buffer_ p' = rc_file_io_buffer_ p.
Proof.
  induction cs as [| [[input n] try_lock] cs IH]; intros p H Hok;
    cbn [rec_callbacks].
  - eauto.
  - inversion Hok as [| ? ? Hc Hcs]; subst.
    destruct (write_frames_defined p input n try_lock H Hc)
      as (p1 & notified & E & H1 & Hch & Hst).
    rewrite E. cbn [bind].
    destruct (IH p1 H1) as (p' & E' & H' & Hch' & Hst');
      [now rewrite Hch |].
    exists p'. split; [assumption | split; [assumption | split; congruence]].
Qed.

Lemma record_loop_defined buffer_len frames sched :
  forall p : RecordProcess DataType,
    wf (rc_circ_buffer_ p) ->
    to_size_t buffer_len = len (rc_file_io_buffer_ p) ->
    Forall (rec_turn_ok (rc_channels p)) sched ->
    exists r, record_loop buffer_len frames p sched = Some r.
Proof.
  induction sched as [| t sched IH]; intros p H Hlen Hok;
    cbn [record_loop]; [eauto |].
  inversion Hok as [| ? ? [Ht Hmid] Hrest]; subst.
  destruct (rec_callbacks_defined _ p H Ht) as (p1 & E & H1 & Hch & Hst).
  rewrite E. cbn [bind]. rewrite <- Hch in Hrest, Hmid. rewrite <- Hst in Hlen.
  destruct (get_read_available (rc_circ_buffer_ p1) >? to_size_t buffer_len).
  - destruct (rec_callbacks_defined _ p1 H1 Hmid)
      as (p1' & E' & H1' & Hch' & Hst').
    rewrite E'. cbn [bind]. rewrite <- Hch' in Hrest. rewrite <- Hst' in Hlen.
    destruct (dequeue_spec (rc_circ_buffer_ p1') (rc_file_io_buffer_ p1')
                (to_size_t buffer_len) H1')
      as (cb' & buffer & Ed & H' & _ & _ & _ & Hl & _);
      [apply wrap_range | lia |].
    rewrite Ed. cbn [bind].
    destruct (rt_writef_frames t <? frames); [eauto |].
    edestruct (IH (mkRecordProcess (rc_channels p1') cb' buffer
                     (rc_io_counter_ p1'))) as [[[p2 tr] st] E2];
      [exact H' | cbn; lia | exact Hrest |].
    rewrite E2. cbn [bind]. eauto.
  - edestruct (IH p1) as [[[p2 tr] st] E2]; [eassumption .. |].
    rewrite E2. cbn [bind]. eauto.
Qed.

Lemma staging_length_as_count (l : list DataType) :
  len l < 2 ^ 63 ->
  to_sf_count (len l) = len l /\ to_size_t (to_sf_count (len l)) = len l.
Proof.
  intros H. assert (0 <= len l) by (unfold len; lia).
  unfold to_sf_count. destruct (Z.ltb_spec (len l) (2 ^ 63)); [| lia].
  split; [reflexivity |]. unfold to_size_t. apply word_small.
  change (2 ^ 63) with 9223372036854775808 in *. lia.
Qed.

(** Every capture schedule has a run. *)
Lemma record_start_defined (p : RecordProcess DataType) sched :
  recorder_ok p -> Forall (rec_turn_ok (rc_channels p)) sched ->
  exists r, record_start p sched = Some r.
Proof.
  intros (H & Hch & Hlen) Hok. unfold record_start.
  destruct (Z.eqb_spec (rc_channels p) 0); [contradiction |].
  destruct (staging_length_as_count _ Hlen) as [_ Hl].
  destruct (record_loop_defined
              (to_sf_count (len (rc_file_io_buffer_ p)))
              (Z.quot (to_sf_count (len (rc_file_io_buffer_ p)))
                      (rc_channels p))
              sched p H Hl Hok) as [[[p' tr] st] E].
  rewrite E. cbn [bind]. destruct st; eauto.
Qed.

Lemma read_frames_defined (p : PlaybackProcess DataType) output n try_lock :
  wf (pb_circ_buffer_ p) ->
  callback_ok (pb_channels p) (output, n, try_lock) ->
  exists p' out' notified,
    read_frames zero p output n try_lock = Some (p', out', notified)
    /\ wf (pb_circ_buffer_ p')
    /\ pb_channels p' = pb_channels p
    /\ pb_file_io_buffer_ p' = pb_file_io_buffer_ p.
Proof.
  intros H Hok. cbn [callback_ok] in Hok. unfold read_frames. cbv zeta.
  set (size := SizeT.mul n (to_size_t (pb_channels p))) in *.
  assert (Hsize : 0 <= size) by apply wrap_range.
  destruct (get_read_available (pb_circ_buffer_ p) >? size).
  - destruct (dequeue_spec (pb_circ_buffer_ p) output size H Hsize)
      as (cb' & out' & E & H' & _); [lia |].
    rewrite E. cbn [bind].
    destruct ((pb_io_counter_ p >=? SizeT.mul PLAY_BUFFER_FACTOR 3 / 4)
              && try_lock);
      do 3 eexists; (split; [reflexivity | cbn; auto]).
  - destruct (std_fill_some output size zero) as [out' E]; [lia |].
    rewrite E. cbn [bind].
    destruct ((pb_io_counter_ p >=? SizeT.mul PLAY_BUFFER_FACTOR 3 / 4)
              && try_lock);
      do 3 eexists; (split; [reflexivity | cbn; auto]).
Qed.

Lemma play_callbacks_defined cs :
  forall p : PlaybackProcess DataType,
    wf (pb_circ_buffer_ p) ->
    Forall (callback_ok (pb_channels p)) cs ->
    exists p',
      play_callbacks zero p cs = Some p'
      /\ wf (pb_circ_buffer_ p')
      /\ pb_channels p' = pb_channels p
      /\ pb_file_io_buffer_ p' = pb_file_io_buffer_ p.
Proof.
  induction cs as [| [[output n] try_lock] cs IH]; intros p H Hok;
    cbn [play_callbacks].
  - eauto.
  - inversion Hok as [| ? ? Hc Hcs]; subst.
    destruct (read_frames_defined p output n try_lock H Hc)
      as (p1 & out' & notified & E & H1 & Hch & Hst).
    rewrite E. cbn [bind].
    destruct (IH p1 H1) as (p' & E' & H' & Hch' & Hst');
      [now rewrite Hch |].
    exists p'. split; [assumption | split; [assumption | split; congruence]].
Qed.

Lemma playback_loop_defined buffer_len channels sched :
  0 < channels -> 0 <= buffer_len < 2 ^ 63 ->
  forall p : PlaybackProcess DataType,
    wf (pb_circ_buffer_ p) ->
    pb_channels p = channels ->
    len (pb_file_io_buffer_ p) = buffer_len ->
    Forall (play_turn_ok channels buffer_len) sched ->
    exists r,
      playback_loop zero buffer_len channels (Z.quot buffer_len channels)
                    p sched = Some r.
Proof.
  intros Hc Hb.
  induction sched as [| t sched IH]; intros p H Hch Hlen Hok;
    cbn [playback_loop]; [eauto |].
  inversion Hok as [| ? ? (Hcb & Hmid & Hdata & Hfr) Hrest]; subst.
  destruct (play_callbacks_defined _ p H Hcb) as (p0 & E & H0 & Hch0 & Hst0).
  rewrite E. cbn [bind].
  destruct (to_sf_count (get_write_available (pb_circ_buffer_ p0))
            >? len (pb_file_io_buffer_ p)).
  - rewrite <- Hch0 in Hmid.
    destruct (play_callbacks_defined _ p0 H0 Hmid)
      as (p1 & E' & H1 & Hch1 & Hst).
    rewrite E'. cbn [bind].
    rewrite Hch0 in Hch1. rewrite Hst0 in Hst.
    destruct (std_copy_some (pt_readf_data t) 0 (len (pt_readf_data t))
                (pb_file_io_buffer_ p1) 0) as [buffer Ec];
      try (unfold len; lia); [rewrite Hst; lia |].
    rewrite Ec. cbn [bind]. apply std_copy_spec in Ec as [Hl _].
    assert (Hpay : 0 <= pt_readf_frames t * pb_channels p
                   <= len (pb_file_io_buffer_ p)).
    { rewrite Z.quot_div_nonneg in Hfr by lia.
      pose proof (Z.mul_div_le (len (pb_file_io_buffer_ p))
                    (pb_channels p) Hc). nia. }
    assert (Hsz : to_size_t (pt_readf_frames t * pb_channels p)
                  = pt_readf_frames t * pb_channels p).
    { unfold to_size_t. apply word_small.
      change (2 ^ 63) with 9223372036854775808 in *. lia. }
    destruct (enqueue_spec (pb_circ_buffer_ p1) buffer
                (to_size_t (pt_readf_frames t * pb_channels p)) H1)
      as (cb' & Ee & H' & _); [lia | rewrite Hsz, Hl, Hst; lia |].
    rewrite Ee. cbn [bind].
    destruct (pt_readf_frames t <? _); [eauto |].
    edestruct (IH (mkPlaybackProcess (pb_channels p1) cb' buffer
                     (pb_io_counter_ p1))) as [[[p2 tr] st] E2];
      [exact H' | exact Hch1 | cbn; congruence | exact Hrest |].
    rewrite E2. cbn [bind]. eauto.
  - edestruct (IH p0) as [[[p2 tr] st] E2];
      [exact H0 | exact Hch0 | congruence | exact Hrest |].
    rewrite E2. cbn [bind]. eauto.
Qed.

(** Every playback schedule has a run. *)
Lemma playback_start_defined (p : PlaybackProcess DataType) sched :
  player_ok p ->
  Forall (play_turn_ok (pb_channels p) (len (pb_file_io_buffer_ p))) sched ->
  exists r, playback_start zero p sched = Some r.
Proof.
  intros (H & Hch & Hlen) Hok. unfold playback_start.
  destruct (Z.eqb_spec (pb_channels p) 0); [lia |].
  destruct (staging_length_as_count _ Hlen) as [-> _].
  apply playback_loop_defined; try assumption; try reflexivity.
  unfold len in *. lia.
Qed.

(** *** The sessions as constructed *)




End StreamFacts.

(** ** The claims about the streaming loops, on concrete runs *)

Lemma callback_dequeues_or_fills_silence_witness :
  callback_claim 0 Z.gtb player_with_two_frames [9; 9] 1 false.
Proof.
  apply (callback_dequeues_or_fills_silence 0 player_with_two_frames
           [9; 9] 1 false).
  - by_evaluation.
  - vm_compute. discriminate.
Defined.

(** C3 as stated fails when the ring buffer holds exactly the [f * c]
    samples of the period: two stereo frames are available, two are asked
    for, and the callback hands out silence and consumes nothing. *)
Lemma callback_with_exactly_enough_fills_silence :
  get_read_available (pb_circ_buffer_ player_with_two_frames) = 4
  /\ read_frames 0 player_with_two_frames [9; 9; 9; 9] 2 false
     = Some (mkPlaybackProcess 2 (pb_circ_buffer_ player_with_two_frames)
               (repeat 0 8) 1,
             [0; 0; 0; 0], false)
  /\ ~ callback_claim 0 Z.geb player_with_two_frames [9; 9; 9; 9] 2 false.
Proof.
  split; [reflexivity |]. split; [reflexivity |].
  intros (p' & out' & notified & E & H).
  vm_compute in E. injection E as <- <- <-.
  vm_compute in H. discriminate.
Qed.

(** C5 fails on the code.  With nothing captured, three turns of the loop
    of [RecordProcess::start] are three availability checks in a row: the
    function is still running and has not waited once, its only
    [data_ready_.wait(lock)] standing after the closing brace of the
    loop. *)
Theorem capture_loop_rechecks_without_waiting :
  record_start idle_recorder idle_schedule
    = Some (idle_recorder, [EvCheck 0; EvCheck 0; EvCheck 0], Running)
  /\ ~ In EvWait [EvCheck 0; EvCheck 0; EvCheck (DataType := Z) 0].
Proof.
  split; [reflexivity |]. cbn. intuition discriminate.
Qed.

Lemma capture_short_write_ends_loop_witness :
  exists p' tr1 tr2,
    record_start idle_recorder short_write_schedule
      = Some (p', tr1 ++ EvWrite [1; 2; 3; 4] 4 3 :: tr2, Exited)
    /\ tr2 = [EvSync; EvWait].
Proof.
  eexists. exists [EvCheck 6; EvDequeue 4 4], [EvSync; EvWait].
  split; [vm_compute; reflexivity |].
  eapply (capture_short_write_ends_loop idle_recorder _ short_write_schedule
            _ Exited [EvCheck 6; EvDequeue 4 4] [1; 2; 3; 4] 4 3
            [EvSync; EvWait]).
  - vm_compute. reflexivity.
  - reflexivity.
  - lia.
Defined.


(** ** Further properties of the ring buffer *)

Lemma next_pow2_ge2 z :
  SizeT.in_range z -> z <= 2 ^ 63 -> 2 <= next_pow2 z.
Proof.
  intros Hr Hle.
  destruct (next_pow2_covers_below_top z Hr Hle) as (_ & Hge & H2).
  destruct (Z.lt_ge_cases z 2); [rewrite H2 by assumption |]; lia.
Qed.

(** X1.  [is_pow2] decides exactly the powers of two among the values of
    [std::size_t]; in particular it rejects 0. *)
Theorem is_pow2_decides_powers_of_two (z : Z) :
  SizeT.in_range z ->
  (is_pow2 z = true <-> power_of_two z) /\ is_pow2 0 = false.
Proof.
  intros Hr. split; [now apply is_pow2_iff | reflexivity].
Qed.

Lemma is_pow2_decides_powers_of_two_witness :
  (is_pow2 4096 = true <-> power_of_two 4096) /\ is_pow2 0 = false.
Proof.
  apply (is_pow2_decides_powers_of_two 4096).
  vm_compute. split; [discriminate | reflexivity].
Defined.

Lemma next_pow2_least z q :
  SizeT.in_range z -> z <= 2 ^ 63 ->
  power_of_two q -> 2 <= q -> z <= q -> next_pow2 z <= q.
Proof.
  intros Hr Hle Hq H2 Hzq.
  destruct (next_pow2_cases_below_top z Hr Hle) as (Hsmall & Hpow & Hbig).
  destruct (Z.le_gt_cases z 2) as [Hz | Hz]; [rewrite Hsmall by assumption; lia |].
  destruct (is_pow2 z) eqn:Ep.
  - apply is_pow2_iff in Ep; [| assumption]. rewrite Hpow by assumption. lia.
  - assert (Hn : ~ power_of_two z).
    { intros Hp. apply is_pow2_iff in Hp; [congruence | assumption]. }
    destruct (Hbig Hz Hn) as (k & _ & _ & _ & Hmin).
    apply Hmin; [assumption |].
    destruct (Z.eq_dec z q) as [-> |]; [contradiction | lia].
Qed.

(** X2.  [next_pow2] is idempotent on requests up to [2^63]: a capacity it
    has produced is left unchanged when asked for again. *)
Theorem next_pow2_idempotent (z : Z) :
  SizeT.in_range z -> z <= 2 ^ 63 ->
  next_pow2 (next_pow2 z) = next_pow2 z.
Proof.
  intros Hr Hle.
  destruct (next_pow2_covers_below_top z Hr Hle) as (Hp & Hge & _).
  pose proof (next_pow2_in_range z Hr) as Hr'.
  pose proof (next_pow2_ge2 z Hr Hle) as H2.
  destruct (Z.eq_dec (next_pow2 z) 2) as [E | Hne].
  - rewrite E. reflexivity.
  - unfold next_pow2 at 1.
    destruct (Z.leb_spec (next_pow2 z) 2); [lia |].
    apply is_pow2_iff in Hp; [| assumption]. now rewrite Hp.
Qed.

Lemma next_pow2_idempotent_witness :
  next_pow2 (next_pow2 1000) = next_pow2 1000.
Proof.
  apply (next_pow2_idempotent 1000).
  - vm_compute. split; [discriminate | reflexivity].
  - vm_compute. discriminate.
Defined.

(** X3.  [next_pow2] is monotone on requests up to [2^63]: a larger request
    never gets a smaller capacity. *)
Theorem next_pow2_monotone (a b : Z) :
  SizeT.in_range a -> a <= b -> b <= 2 ^ 63 ->
  next_pow2 a <= next_pow2 b.
Proof.
  intros Ha Hab Hb.
  assert (Hrb : SizeT.in_range b).
  { destruct Ha. split; [lia |]. rewrite modulus_eq.
    change (2 ^ 63) with 9223372036854775808 in Hb. lia. }
  destruct (next_pow2_covers_below_top b Hrb Hb) as (Hp & Hge & _).
  pose proof (next_pow2_ge2 b Hrb Hb).
  apply next_pow2_least; try assumption; lia.
Qed.

Lemma next_pow2_monotone_witness : next_pow2 17 <= next_pow2 1000.
Proof.
  apply (next_pow2_monotone 17 1000).
  - vm_compute. split; [discriminate | reflexivity].
  - lia.
  - vm_compute. discriminate.
Defined.

(** X4.  For a request between 2 and [2^63], [next_pow2] rounds up by less
    than a factor of two: the capacity is below twice the request. *)
Theorem next_pow2_below_double (z : Z) :
  2 <= z -> z <= 2 ^ 63 -> z <= next_pow2 z < 2 * z.
Proof.
  intros H2 Hle.
  assert (Hr : SizeT.in_range z).
  { split; [lia |]. rewrite modulus_eq.
    change (2 ^ 63) with 9223372036854775808 in Hle. lia. }
  destruct (next_pow2_covers_below_top z Hr Hle) as (_ & Hge & _).
  split; [assumption |].
  destruct (next_pow2_cases_below_top z Hr Hle) as (Hsmall & Hpow & Hbig).
  destruct (Z.le_gt_cases z 2) as [Hz | Hz]; [rewrite Hsmall by assumption; lia |].
  destruct (is_pow2 z) eqn:Ep.
  - apply is_pow2_iff in Ep; [| assumption]. rewrite Hpow by assumption. lia.
  - destruct (next_pow2_below_top z Hr Hz Hle Ep) as [-> _].
    assert (Hne : z <> 2 ^ Z.log2 z).
    { intros E. assert (Hp : power_of_two z).
      { exists (Z.log2 z). split; [apply Z.log2_nonneg | exact E]. }
      apply is_pow2_iff in Hp; [congruence | assumption]. }
    destruct (Z.log2_spec z) as [Hlo _]; [lia |].
    rewrite Z.pow_add_r by (try apply Z.log2_nonneg; lia).
    change (2 ^ 1) with 2. lia.
Qed.

Lemma next_pow2_below_double_witness : 1000 <= next_pow2 1000 < 2 * 1000.
Proof.
  apply (next_pow2_below_double 1000).
  - lia.
  - vm_compute. discriminate.
Defined.

Section MoreRingFacts.
Context {DataType : Type}.
Variable zero : DataType.
Implicit Types (cb : CircularBuffer DataType) (src dst : list DataType).

(** X5.  A buffer constructed from a request of at most [2^63] has the
    capacity [next_pow2] gives, satisfies the class invariant, is empty,
    offers all but one of its slots for writing, and its storage is
    value-initialised. *)
Theorem constructed_buffer_is_empty (requested : Z) :
  SizeT.in_range requested -> requested <= 2 ^ 63 ->
  capacity (CircularBuffer_new zero requested) = next_pow2 requested
  /\ wf (CircularBuffer_new zero requested)
  /\ get_read_available (CircularBuffer_new zero requested) = 0
  /\ get_write_available (CircularBuffer_new zero requested)
     = next_pow2 requested - 1
  /\ forall j, 0 <= j < next_pow2 requested ->
               zth (buffer_ (CircularBuffer_new zero requested)) j
               = Some zero.
Proof.
  intros Hr Hle.
  pose proof (new_capacity_ge2 zero requested Hr Hle) as H2.
  pose proof (new_wf zero requested Hr H2) as H.
  pose proof (new_capacity zero requested) as Hcap.
  assert (Hra : get_read_available (CircularBuffer_new zero requested) = 0)
    by (rewrite read_available_abs by assumption; reflexivity).
  split; [assumption |]. split; [assumption |]. split; [assumption |].
  split.
  - rewrite write_available_eq by assumption. lia.
  - intros j Hj. unfold zth, CircularBuffer_new. cbn [buffer_].
    apply nth_error_repeat. lia.
Qed.

(** X6.  On a buffer that satisfies the class invariant,
    [get_read_available] is the distance between the two heads whichever
    of them is ahead, and [get_write_available] is what that distance
    leaves of [capacity - 1]. *)
Theorem availability_is_head_distance cb :
  wf cb ->
  get_read_available cb = Z.abs (write_head_ cb - read_head_ cb)
  /\ get_write_available cb
     = capacity cb - 1 - Z.abs (write_head_ cb - read_head_ cb).
Proof.
  intros H. split; [now apply read_available_abs |].
  rewrite write_available_eq, read_available_abs by assumption. reflexivity.
Qed.

(** X7.  In every state reachable from a constructor call with a request
    of at most [2^63], the two [assert]s of [compute_read_available] hold:
    the capacity is a power of two and the computed amount is below it. *)
Theorem asserts_hold_in_reachable_states (requested : Z) cb :
  SizeT.in_range requested -> requested <= 2 ^ 63 ->
  reachable zero requested cb ->
  is_pow2 (capacity cb) = true
  /\ compute_read_available (read_head_ cb) (write_head_ cb) (capacity cb)
     < capacity cb.
Proof.
  intros Hr Hle Hreach.
  pose proof (new_capacity_ge2 zero requested Hr Hle) as H2.
  pose proof (reachable_wf zero requested cb Hr H2 Hreach) as H.
  split; [now apply assert_capacity_is_pow2 |].
  now apply (assert_read_available_lt cb).
Qed.

(** X8.  On every buffer that satisfies the class invariant,
    [dequeue(dst, n)] returns [min(n, read_available())], moves [read_head]
    forward by that amount modulo the capacity, leaves [write_head] and the
    storage alone, fills the head of [dst] with the storage cells from the
    old read head on in ring order, and leaves the rest of [dst] as it
    was. *)
Theorem dequeue_contract cb dst (n : Z) :
  wf cb -> 0 <= n -> Z.min n (get_read_available cb) <= len dst ->
  exists cb' dst',
    dequeue cb dst n = Some (cb', dst', Z.min n (get_read_available cb))
    /\ read_head_ cb' =
         (read_head_ cb + Z.min n (get_read_available cb)) mod capacity cb
    /\ write_head_ cb' = write_head_ cb
    /\ buffer_ cb' = buffer_ cb
    /\ len dst' = len dst
    /\ (forall i, 0 <= i < Z.min n (get_read_available cb) ->
                  zth dst' i = cell cb (read_head_ cb + i))
    /\ (forall i, Z.min n (get_read_available cb) <= i ->
                  zth dst' i = zth dst i).
Proof.
  intros H Hn Hdst.
  destruct (dequeue_spec cb dst n H Hn Hdst)
    as (cb' & dst' & E & _ & Hb & Hw & Hr & Hl & Hhead & Htail).
  exists cb', dst'. repeat (split; [assumption |]). assumption.
Qed.

Lemma std_copy_nothing src a dst off :
  0 <= a <= len src -> 0 <= off <= len dst ->
  std_copy src a a dst off = Some dst.
Proof.
  intros Ha Ho. unfold std_copy.
  replace ((0 <=? a) && (a <=? a) && (a <=? len src) && (0 <=? off)
           && (off + (a - a) <=? len dst)) with true
    by (symmetry; rewrite !andb_true_iff, !Z.leb_le; lia).
  rewrite Z.sub_diag, Z.add_0_r. cbn [Z.to_nat firstn app].
  now rewrite firstn_skipn.
Qed.

(** X9.  Underrun: [dequeue] on an empty buffer (both heads equal)
    returns 0 and changes nothing, neither the buffer nor the
    destination, whatever amount is asked for. *)
Theorem dequeue_on_empty_changes_nothing cb dst (n : Z) :
  wf cb -> read_head_ cb = write_head_ cb -> 0 <= n ->
  dequeue cb dst n = Some (cb, dst, 0).
Proof.
  intros H Hempty Hn. destruct (wf_heads _ H) as [Hr Hw].
  assert (Hra : get_read_available cb = 0)
    by (rewrite read_available_abs by assumption; lia).
  rewrite dequeue_unfold by assumption. cbv zeta.
  rewrite Hra, Z.min_r, Z.add_0_r by lia.
  destruct (Z.gtb_spec (read_head_ cb) (capacity cb)); [lia |].
  rewrite std_copy_nothing by (unfold capacity, len in *; lia).
  cbn [bind]. rewrite Z.mod_small by lia. now destruct cb.
Qed.

(** X10.  Overflow: [enqueue] on a full buffer
    ([get_write_available() == 0]) returns 0 and changes nothing, storage
    included, whatever is offered. *)
Theorem enqueue_on_full_changes_nothing cb src (n : Z) :
  wf cb -> get_write_available cb = 0 -> 0 <= n ->
  enqueue cb src n = Some (cb, 0).
Proof.
  intros H Hfull Hn. destruct (wf_heads _ H) as [Hr Hw].
  rewrite enqueue_unfold by assumption. cbv zeta.
  rewrite Hfull, Z.min_r, Z.add_0_r by lia.
  destruct (Z.gtb_spec (write_head_ cb) (capacity cb)); [lia |].
  rewrite std_copy_nothing by (unfold capacity, len in *; lia).
  cbn [bind]. rewrite Z.mod_small by lia. now destruct cb.
Qed.

Lemma mod_below C x : - C <= x < 0 -> x mod C = x + C.
Proof. intros H. symmetry. apply (Z.mod_unique _ _ (-1)); lia. Qed.

(** The storage after an [enqueue], cell by cell. *)
Lemma enqueue_storage cb src (n : Z) :
  wf cb -> 0 <= n -> Z.min n (get_write_available cb) <= len src ->
  exists cb',
    enqueue cb src n = Some (cb', Z.min n (get_write_available cb))
    /\ forall j, 0 <= j < capacity cb ->
         zth (buffer_ cb') j =
           if in_span (capacity cb) (write_head_ cb)
                      (Z.min n (get_write_available cb)) j
           then zth src ((j - write_head_ cb) mod capacity cb)
           else zth (buffer_ cb) j.
Proof.
  intros H Hn Hsrc. pose proof (wf_capacity_bounds _ H) as HC.
  destruct (wf_heads _ H) as [Hr Hw].
  pose proof (write_available_range _ H) as Hwa.
  rewrite enqueue_unfold by assumption. cbv zeta.
  set (ws := Z.min n (get_write_available cb)) in *.
  assert (Hws : 0 <= ws < capacity cb) by (subst ws; lia).
  assert (Hlen : len (buffer_ cb) = capacity cb) by reflexivity.
  unfold in_span.
  destruct (Z.gtb_spec (write_head_ cb + ws) (capacity cb)) as [Hwrap | Hflat].
  - destruct (std_copy_some src 0 (capacity cb - write_head_ cb)
                (buffer_ cb) (write_head_ cb)) as [b1 E1]; try lia.
    destruct (std_copy_spec _ _ _ _ _ _ E1) as [L1 N1].
    destruct (std_copy_some src (capacity cb - write_head_ cb) ws b1 0)
      as [b2 E2]; try lia.
    destruct (std_copy_spec _ _ _ _ _ _ E2) as [L2 N2].
    rewrite E1. cbn [bind]. rewrite E2. cbn [bind].
    eexists. split; [reflexivity |]. cbn [buffer_]. intros j Hj.
    rewrite N2, N1 by lia.
    destruct (Z.lt_ge_cases j (write_head_ cb)).
    + rewrite mod_below by lia. bool_cases; try lia; try reflexivity; f_equal; lia.
    + rewrite mod_lo by lia. bool_cases; try lia; try reflexivity; f_equal; lia.
  - destruct (std_copy_some src 0 ws (buffer_ cb) (write_head_ cb))
      as [b1 E1]; try lia.
    destruct (std_copy_spec _ _ _ _ _ _ E1) as [L1 N1].
    rewrite E1. cbn [bind].
    eexists. split; [reflexivity |]. cbn [buffer_]. intros j Hj.
    rewrite N1 by lia.
    destruct (Z.lt_ge_cases j (write_head_ cb)).
    + rewrite mod_below by lia. bool_cases; try lia; reflexivity.
    + rewrite mod_lo by lia. bool_cases; try lia; try reflexivity; f_equal; lia.
Qed.

(** X11.  [enqueue] writes the cells it reports and no other: after the
    call a storage cell within [returned] positions of the old write head
    (counted around the ring) holds the matching element of [src], and
    every other cell holds what it held before. *)
Theorem enqueue_writes_only_its_span cb src (n : Z) :
  wf cb -> 0 <= n -> Z.min n (get_write_available cb) <= len src ->
  exists cb',
    enqueue cb src n = Some (cb', Z.min n (get_write_available cb))
    /\ forall j, 0 <= j < capacity cb ->
         zth (buffer_ cb') j =
           if in_span (capacity cb) (write_head_ cb)
                      (Z.min n (get_write_available cb)) j
           then zth src ((j - write_head_ cb) mod capacity cb)
           else zth (buffer_ cb) j.
Proof. apply enqueue_storage. Qed.

(** X12.  Round trip inside the storage: from an empty buffer, [k > 0]
    samples whose span ends before the end of the storage are all
    accepted, and the [dequeue] of [k] that follows returns exactly them,
    in order. *)
Theorem roundtrip_inside_storage cb (values : list DataType) :
  wf cb -> read_head_ cb = write_head_ cb ->
  0 < len values -> write_head_ cb + len values < capacity cb ->
  roundtrip zero cb values = Some (values, len values).
Proof. apply roundtrip_without_wrap. Qed.


Lemma zth_of_nat (l : list DataType) (i : nat) :
  zth l (Z.of_nat i) = nth_error l i.
Proof. unfold zth. now rewrite Nat2Z.id. Qed.

(** X14.  First in, first out: from an empty buffer, two [enqueue]s whose
    combined span ends before the end of the storage are both accepted
    whole, and one [dequeue] of the combined length returns the first block
    followed by the second and leaves the buffer empty. *)
Theorem two_enqueues_come_out_in_order cb (a b : list DataType) :
  wf cb -> read_head_ cb = write_head_ cb ->
  write_head_ cb + len a + len b < capacity cb ->
  exists cb1 cb2 cb3,
    enqueue cb a (len a) = Some (cb1, len a)
    /\ enqueue cb1 b (len b) = Some (cb2, len b)
    /\ dequeue cb2 (repeat zero (length (a ++ b))) (len a + len b)
       = Some (cb3, a ++ b, len a + len b)
    /\ read_head_ cb3 = write_head_ cb3.
Proof.
  intros H Hempty Hroom.
  destruct (wf_heads _ H) as [Hr Hw].
  assert (Hla : 0 <= len a) by (unfold len; lia).
  assert (Hlb : 0 <= len b) by (unfold len; lia).
  assert (Hwa : get_write_available cb = capacity cb - 1).
  { rewrite write_available_eq, read_available_abs by assumption. lia. }
  destruct (enqueue_spec cb a (len a) H Hla)
    as (cb1 & E1 & H1 & Hcap1 & Hr1 & Hw1 & Hcells1); [lia |].
  rewrite Z.min_l in * by lia. rewrite mod_lo in Hw1 by lia.
  assert (Hwa1 : get_write_available cb1 = capacity cb - 1 - len a).
  { rewrite write_available_eq, read_available_abs by assumption. lia. }
  destruct (enqueue_spec cb1 b (len b) H1 Hlb)
    as (cb2 & E2 & H2 & Hcap2 & Hr2 & Hw2 & _); [lia |].
  destruct (enqueue_storage cb1 b (len b) H1 Hlb) as (cb2' & E2' & Hst2);
    [lia |].
  rewrite E2 in E2'. injection E2' as <-.
  rewrite Z.min_l in * by lia. rewrite Hcap1, mod_lo in Hw2 by lia.
  assert (Hra2 : get_read_available cb2 = len a + len b).
  { rewrite read_available_abs by assumption. lia. }
  assert (Hdl : len (repeat zero (length (a ++ b))) = len a + len b).
  { unfold len. rewrite repeat_length, length_app. lia. }
  destruct (dequeue_spec cb2 (repeat zero (length (a ++ b)))
              (len a + len b) H2)
    as (cb3 & dst & E3 & _ & _ & Hw3 & Hr3 & Hl3 & Hdst & _); try lia.
  rewrite Hra2, Z.min_id in *.
  assert (Hout : dst = a ++ b).
  { apply nth_error_ext. intros i.
    destruct (Nat.lt_ge_cases i (length (a ++ b))) as [Hi | Hi].
    - rewrite length_app in Hi. rewrite <- zth_of_nat.
      rewrite Hdst by (unfold len; lia).
      unfold cell. rewrite Hcap2, Hcap1, Hr2, Hr1, Hempty.
      rewrite mod_lo by (unfold len in *; lia).
      rewrite Hst2 by (unfold len in *; lia).
      unfold in_span. rewrite Hw1, Hcap1.
      destruct (Nat.lt_ge_cases i (length a)) as [Ha | Hb'].
      + rewrite mod_below by (unfold len in *; lia).
        destruct (Z.ltb_spec
                    (write_head_ cb + Z.of_nat i - (write_head_ cb + len a)
                     + capacity cb) (len b));
          [unfold len in *; lia |].
        specialize (Hcells1 (Z.of_nat i)).
        unfold cell in Hcells1. rewrite Hcap1, mod_lo in Hcells1
          by (unfold len in *; lia).
        rewrite Hcells1 by (unfold len; lia).
        rewrite zth_of_nat. symmetry. now apply nth_error_app1.
      + rewrite mod_lo by (unfold len in *; lia).
        destruct (Z.ltb_spec
                    (write_head_ cb + Z.of_nat i - (write_head_ cb + len a))
                    (len b)); [| unfold len in *; lia].
        rewrite nth_error_app2 by assumption.
        unfold zth. f_equal. unfold len. lia.
    - transitivity (@None DataType); [| symmetry]; apply nth_error_None;
        [| assumption].
      rewrite length_app in Hi. unfold len in *. lia. }
  subst dst. exists cb1, cb2, cb3.
  split; [assumption |]. split; [assumption |]. split; [assumption |].
  rewrite Hr3, Hw3, Hcap2, Hcap1, Hr2, Hr1, Hempty, Hw2.
  rewrite mod_lo by lia. lia.
Qed.

Lemma vector_resize_len (l : list DataType) n :
  0 <= n -> len (vector_resize zero l n) = n.
Proof.
  intros Hn. unfold len, vector_resize.
  rewrite length_app, length_firstn, repeat_length. lia.
Qed.

Lemma vector_resize_zth (l : list DataType) n j :
  0 <= j < n ->
  zth (vector_resize zero l n) j
  = if j <? len l then zth l j else Some zero.
Proof.
  intros Hj. unfold zth, vector_resize, len.
  rewrite nth_error_app, length_firstn, nth_error_firstn.
  destruct (Z.ltb_spec j (Z.of_nat (length l))).
  - destruct (Nat.ltb_spec (Z.to_nat j) (Nat.min (Z.to_nat n) (length l)));
      [| lia].
    destruct (Nat.ltb_spec (Z.to_nat j) (Z.to_nat n)); [reflexivity | lia].
  - destruct (Nat.ltb_spec (Z.to_nat j) (Nat.min (Z.to_nat n) (length l)));
      [lia |].
    apply nth_error_repeat. lia.
Qed.

(** X15.  [resize] gives the storage the capacity [next_pow2] computes
    for the new size, keeps the cells the old and the new storage share,
    value-initialises the cells it adds, and does not move the heads: the
    class invariant survives exactly when both heads are below the new
    capacity. *)
Theorem resize_keeps_heads cb (new_size : Z) :
  wf cb -> SizeT.in_range new_size -> new_size <= 2 ^ 63 ->
  capacity (resize zero cb new_size) = next_pow2 new_size
  /\ read_head_ (resize zero cb new_size) = read_head_ cb
  /\ write_head_ (resize zero cb new_size) = write_head_ cb
  /\ (wf (resize zero cb new_size) <->
      read_head_ cb < next_pow2 new_size
      /\ write_head_ cb < next_pow2 new_size)
  /\ (forall j, 0 <= j < next_pow2 new_size ->
        zth (buffer_ (resize zero cb new_size)) j
        = if j <? capacity cb then zth (buffer_ cb) j else Some zero).
Proof.
  intros H Hr Hle. destruct (wf_heads _ H) as [Hrh Hwh].
  pose proof (next_pow2_ge2 new_size Hr Hle) as H2.
  assert (Hcap : capacity (resize zero cb new_size) = next_pow2 new_size).
  { unfold capacity, resize. cbn [buffer_]. apply vector_resize_len. lia. }
  split; [assumption |]. split; [reflexivity |]. split; [reflexivity |].
  split.
  - unfold wf. rewrite Hcap. cbn [resize read_head_ write_head_]. split.
    + intros (_ & _ & Hr' & Hw'). lia.
    + intros [Hr' Hw'].
      split; [now apply next_pow2_is_pow2 |].
      split; [now apply next_pow2_in_range | lia].
  - intros j Hj. unfold resize. cbn [buffer_].
    now apply vector_resize_zth.
Qed.

End MoreRingFacts.

Lemma constructed_buffer_is_empty_witness :
  capacity (CircularBuffer_new 0 10) = next_pow2 10
  /\ wf (CircularBuffer_new 0 10)
  /\ get_read_available (CircularBuffer_new 0 10) = 0
  /\ get_write_available (CircularBuffer_new 0 10) = next_pow2 10 - 1
  /\ forall j, 0 <= j < next_pow2 10 ->
               zth (buffer_ (CircularBuffer_new 0 10)) j = Some 0.
Proof.
  apply (constructed_buffer_is_empty 0 10).
  - vm_compute. split; [discriminate | reflexivity].
  - vm_compute. discriminate.
Defined.

Lemma wrapped_ring_wf : wf wrapped_ring.
Proof. by_evaluation. Qed.

Lemma full_ring_wf : wf full_ring.
Proof. by_evaluation. Qed.

Lemma availability_is_head_distance_witness :
  get_read_available wrapped_ring = Z.abs (4 - 10)
  /\ get_write_available wrapped_ring = 16 - 1 - Z.abs (4 - 10).
Proof.
  apply (availability_is_head_distance wrapped_ring).
  exact wrapped_ring_wf.
Defined.

Lemma asserts_hold_in_reachable_states_witness :
  is_pow2 (capacity drained_ring) = true
  /\ compute_read_available 10 10 (capacity drained_ring)
     < capacity drained_ring.
Proof.
  apply (asserts_hold_in_reachable_states 0 10 drained_ring).
  - vm_compute. split; [discriminate | reflexivity].
  - vm_compute. discriminate.
  - exact drained_ring_reachable.
Defined.

Lemma dequeue_contract_witness :
  exists cb' dst',
    dequeue wrapped_ring (repeat 0 4) 4 = Some (cb', dst', 4)
    /\ read_head_ cb' = 14.
Proof.
  destruct (dequeue_contract wrapped_ring (repeat 0 4) 4)
    as (cb' & dst' & E & Hr & _).
  - exact wrapped_ring_wf.
  - lia.
  - vm_compute. discriminate.
  - exists cb', dst'. split; [exact E | exact Hr].
Defined.

Lemma dequeue_on_empty_changes_nothing_witness :
  dequeue drained_ring [9; 9] 2 = Some (drained_ring, [9; 9], 0).
Proof.
  apply (dequeue_on_empty_changes_nothing drained_ring [9; 9] 2).
  - exact drained_ring_wf.
  - reflexivity.
  - lia.
Defined.

Lemma enqueue_on_full_changes_nothing_witness :
  enqueue full_ring [8; 9] 2 = Some (full_ring, 0).
Proof.
  apply (enqueue_on_full_changes_nothing full_ring [8; 9] 2).
  - exact full_ring_wf.
  - reflexivity.
  - lia.
Defined.

Lemma enqueue_writes_only_its_span_witness :
  exists cb',
    enqueue drained_ring ten_samples 10 = Some (cb', 10)
    /\ zth (buffer_ cb') 5 = zth (buffer_ drained_ring) 5
    /\ zth (buffer_ cb') 2 = zth ten_samples 8.
Proof.
  destruct (enqueue_writes_only_its_span drained_ring ten_samples 10)
    as (cb' & E & Hcells).
  - exact drained_ring_wf.
  - lia.
  - vm_compute. discriminate.
  - exists cb'. split; [exact E |]. split.
    + apply (Hcells 5). vm_compute. split; [discriminate | reflexivity].
    + apply (Hcells 2). vm_compute. split; [discriminate | reflexivity].
Defined.

Lemma roundtrip_inside_storage_witness :
  roundtrip 0 fresh_ring ten_samples = Some (ten_samples, 10).
Proof.
  apply (roundtrip_inside_storage 0 fresh_ring ten_samples).
  - exact fresh_ring_wf.
  - reflexivity.
  - vm_compute. reflexivity.
  - vm_compute. reflexivity.
Defined.


Lemma two_enqueues_come_out_in_order_witness :
  exists cb1 cb2 cb3,
    enqueue fresh_ring [1; 2; 3] 3 = Some (cb1, 3)
    /\ enqueue cb1 [4; 5] 2 = Some (cb2, 2)
    /\ dequeue cb2 (repeat 0 5) 5 = Some (cb3, [1; 2; 3; 4; 5], 5)
    /\ read_head_ cb3 = write_head_ cb3.
Proof.
  apply (two_enqueues_come_out_in_order 0 fresh_ring [1; 2; 3] [4; 5]).
  - exact fresh_ring_wf.
  - reflexivity.
  - vm_compute. reflexivity.
Defined.

Lemma resize_keeps_heads_witness :
  capacity (resize 0 drained_ring 20) = 32
  /\ read_head_ (resize 0 drained_ring 20) = 10.
Proof.
  destruct (resize_keeps_heads 0 drained_ring 20) as (Hc & Hr & _).
  - exact drained_ring_wf.
  - vm_compute. split; [discriminate | reflexivity].
  - vm_compute. discriminate.
  - split; [exact Hc | exact Hr].
Defined.

(** ** Further properties of the streaming code *)

Section MoreStreamFacts.
Context {DataType : Type}.
Variable zero : DataType.
Implicit Types (tr : list (event DataType)).

(** *** The wake-up counters *)

Lemma write_frames_counter (p : RecordProcess DataType) input n try_lock :
  wf (rc_circ_buffer_ p) ->
  callback_ok (rc_channels p) (input, n, try_lock) ->
  exists p',
    write_frames p input n try_lock
      = Some (p', (rc_io_counter_ p >=? REC_BUFFER_FACTOR) && try_lock)
    /\ wf (rc_circ_buffer_ p')
    /\ rc_channels p' = rc_channels p
    /\ rc_io_counter_ p' =
         if (rc_io_counter_ p >=? REC_BUFFER_FACTOR) && try_lock then 0
         else SizeT.add (rc_io_counter_ p) 1.
Proof.
  intros H Hok. cbn [callback_ok] in Hok. unfold write_frames. cbv zeta.
  set (size := SizeT.mul n (to_size_t (rc_channels p))) in *.
  assert (Hsize : 0 <= size) by apply wrap_range.
  destruct (enqueue_spec (rc_circ_buffer_ p) input size H Hsize)
    as (cb' & E & H' & _); [lia |].
  rewrite E. cbn [bind].
  destruct ((rc_io_counter_ p >=? REC_BUFFER_FACTOR) && try_lock);
    eexists; (split; [reflexivity | cbn; auto]).
Qed.

Lemma read_frames_counter (p : PlaybackProcess DataType) output n try_lock :
  wf (pb_circ_buffer_ p) ->
  callback_ok (pb_channels p) (output, n, try_lock) ->
  exists p' out',
    read_frames zero p output n try_lock
      = Some (p', out',
              (pb_io_counter_ p >=? SizeT.mul PLAY_BUFFER_FACTOR 3 / 4)
              && try_lock)
    /\ wf (pb_circ_buffer_ p')
    /\ pb_channels p' = pb_channels p
    /\ pb_io_counter_ p' =
         if (pb_io_counter_ p >=? SizeT.mul PLAY_BUFFER_FACTOR 3 / 4)
            && try_lock
         then 0 else SizeT.add (pb_io_counter_ p) 1.
Proof.
  intros H Hok. cbn [callback_ok] in Hok. unfold read_frames. cbv zeta.
  set (size := SizeT.mul n (to_size_t (pb_channels p))) in *.
  assert (Hsize : 0 <= size) by apply wrap_range.
  destruct (get_read_available (pb_circ_buffer_ p) >? size).
  - destruct (dequeue_spec (pb_circ_buffer_ p) output size H Hsize)
      as (cb' & out' & E & H' & _); [lia |].
    rewrite E. cbn [bind].
    destruct ((pb_io_counter_ p >=? SizeT.mul PLAY_BUFFER_FACTOR 3 / 4)
              && try_lock);
      do 2 eexists; (split; [reflexivity | cbn; auto]).
  - destruct (std_fill_some output size zero) as [out' E]; [lia |].
    rewrite E. cbn [bind].
    destruct ((pb_io_counter_ p >=? SizeT.mul PLAY_BUFFER_FACTOR 3 / 4)
              && try_lock);
      do 2 eexists; (split; [reflexivity | cbn; auto]).
Qed.

Lemma notifies_at_shift period c n :
  0 < period ->
  map (notifies_at period ((c + 1) mod period)) (seq 0 n)
  = map (notifies_at period c) (seq 1 n).
Proof.
  intros Hp. rewrite <- seq_shift, map_map. apply map_ext. intros i.
  unfold notifies_at. f_equal.
  rewrite <- Z.add_assoc, Zplus_mod_idemp_l. f_equal. lia.
Qed.

Lemma rec_notifications_cadence cs :
  forall (p : RecordProcess DataType) c,
    wf (rc_circ_buffer_ p) ->
    Forall (callback_ok (rc_channels p)) cs -> mutex_free cs ->
    rc_io_counter_ p = c -> 0 <= c <= REC_BUFFER_FACTOR ->
    exists p',
      rec_notifications p cs
        = Some (p', map (notifies_at (REC_BUFFER_FACTOR + 1) c)
                        (seq 0 (length cs)))
      /\ rc_io_counter_ p' = (c + len cs) mod (REC_BUFFER_FACTOR + 1).
Proof.
  unfold REC_BUFFER_FACTOR.
  induction cs as [| [[input n] try_lock] cs IH]; intros p c H Hok Hfree Hc Hr.
  - exists p. split; [reflexivity |]. cbn. rewrite Z.add_0_r, Z.mod_small; lia.
  - inversion Hok as [| ? ? Hc1 Hcs]; subst.
    inversion Hfree as [| ? ? Hl Hfs]; subst. cbn in Hl. subst try_lock.
    destruct (write_frames_counter p input n true H Hc1)
      as (p1 & E & H1 & Hch & Hcnt).
    unfold REC_BUFFER_FACTOR in E, Hcnt.
    rewrite andb_true_r in E, Hcnt.
    cbn [rec_notifications]. rewrite E. cbn [bind].
    rewrite <- Hch in Hcs.
    assert (Hc1' : rc_io_counter_ p1 = (rc_io_counter_ p + 1) mod (4 + 1)).
    { rewrite Hcnt. unfold SizeT.add.
      destruct (Z.geb_spec (rc_io_counter_ p) 4).
      - replace (rc_io_counter_ p) with 4 by lia. reflexivity.
      - rewrite word_small, Z.mod_small by lia. reflexivity. }
    destruct (IH p1 _ H1 Hcs Hfs Hc1') as (p' & E' & Hfin).
    { match goal with
      | |- _ <= ?a mod ?b <= _ => pose proof (Z.mod_pos_bound a b)
      end. lia. }
    rewrite E'. cbn [bind]. exists p'. split.
    + f_equal. f_equal. cbn [length seq map]. f_equal.
      * unfold notifies_at. cbn [Z.of_nat]. rewrite Z.add_0_r.
        destruct (Z.geb_spec (rc_io_counter_ p) 4).
        -- replace (rc_io_counter_ p) with 4 by lia. reflexivity.
        -- symmetry. apply Z.eqb_neq. rewrite Z.mod_small; lia.
      * apply notifies_at_shift. lia.
    + rewrite Hfin, Zplus_mod_idemp_l. f_equal.
      unfold len. cbn [length]. lia.
Qed.

Lemma play_notifications_cadence cs :
  forall (p : PlaybackProcess DataType) c,
    wf (pb_circ_buffer_ p) ->
    Forall (callback_ok (pb_channels p)) cs -> mutex_free cs ->
    pb_io_counter_ p = c -> 0 <= c <= 3 ->
    exists p',
      play_notifications zero p cs
        = Some (p', map (notifies_at 4 c) (seq 0 (length cs)))
      /\ pb_io_counter_ p' = (c + len cs) mod 4.
Proof.
  induction cs as [| [[output n] try_lock] cs IH]; intros p c H Hok Hfree Hc Hr.
  - exists p. split; [reflexivity |]. cbn. rewrite Z.add_0_r, Z.mod_small; lia.
  - inversion Hok as [| ? ? Hc1 Hcs]; subst.
    inversion Hfree as [| ? ? Hl Hfs]; subst. cbn in Hl. subst try_lock.
    destruct (read_frames_counter p output n true H Hc1)
      as (p1 & out' & E & H1 & Hch & Hcnt).
    change (SizeT.mul PLAY_BUFFER_FACTOR 3 / 4) with 3 in E, Hcnt.
    rewrite andb_true_r in E, Hcnt.
    cbn [play_notifications]. rewrite E. cbn [bind].
    rewrite <- Hch in Hcs.
    assert (Hc1' : pb_io_counter_ p1 = (pb_io_counter_ p + 1) mod 4).
    { rewrite Hcnt. unfold SizeT.add.
      destruct (Z.geb_spec (pb_io_counter_ p) 3).
      - replace (pb_io_counter_ p) with 3 by lia. reflexivity.
      - rewrite word_small, Z.mod_small by lia. reflexivity. }
    destruct (IH p1 _ H1 Hcs Hfs Hc1') as (p' & E' & Hfin).
    { match goal with
      | |- _ <= ?a mod ?b <= _ => pose proof (Z.mod_pos_bound a b)
      end. lia. }
    rewrite E'. cbn [bind]. exists p'. split.
    + f_equal. f_equal. cbn [length seq map]. f_equal.
      * unfold notifies_at. cbn [Z.of_nat]. rewrite Z.add_0_r.
        destruct (Z.geb_spec (pb_io_counter_ p) 3).
        -- replace (pb_io_counter_ p) with 3 by lia. reflexivity.
        -- symmetry. apply Z.eqb_neq. rewrite Z.mod_small; lia.
      * apply notifies_at_shift. lia.
    + rewrite Hfin, Zplus_mod_idemp_l. f_equal.
      unfold len. cbn [length]. lia.
Qed.

(** X16.  Capture wake-ups: while [try_lock] finds the mutex free, a
    recorder whose counter starts at 0 calls [notify_one] on every fifth
    callback and on no other, and the counter is back at 0 after each of
    them. *)
Theorem capture_notifies_every_fifth_callback
    (p : RecordProcess DataType) (cs : list (list DataType * Z * bool)) :
  wf (rc_circ_buffer_ p) ->
  Forall (callback_ok (rc_channels p)) cs -> mutex_free cs ->
  rc_io_counter_ p = 0 ->
  exists p',
    rec_notifications p cs
      = Some (p', map (fun i => (Z.of_nat i + 1) mod 5 =? 0)
                      (seq 0 (length cs)))
    /\ rc_io_counter_ p' = len cs mod 5.
Proof.
  intros H Hok Hfree Hc.
  destruct (rec_notifications_cadence cs p 0 H Hok Hfree Hc)
    as (p' & E & Hfin); [unfold REC_BUFFER_FACTOR; lia |].
  exists p'. split; [exact E | exact Hfin].
Qed.

(** X17.  Playback wake-ups: while [try_lock] finds the mutex free, a
    player whose counter starts at 0 calls [notify_one] on every fourth
    callback and on no other, whether the callback delivered samples or
    silence. *)
Theorem playback_notifies_every_fourth_callback
    (p : PlaybackProcess DataType) (cs : list (list DataType * Z * bool)) :
  wf (pb_circ_buffer_ p) ->
  Forall (callback_ok (pb_channels p)) cs -> mutex_free cs ->
  pb_io_counter_ p = 0 ->
  exists p',
    play_notifications zero p cs
      = Some (p', map (fun i => (Z.of_nat i + 1) mod 4 =? 0)
                      (seq 0 (length cs)))
    /\ pb_io_counter_ p' = len cs mod 4.
Proof.
  intros H Hok Hfree Hc.
  destruct (play_notifications_cadence cs p 0 H Hok Hfree Hc)
    as (p' & E & Hfin); [lia |].
  exists p'. split; [exact E | exact Hfin].
Qed.

(** *** The shape of the traces *)

Lemma playback_loop_checks_after_wait buffer_len channels frames sched :
  forall p p' tr st,
    playback_loop zero buffer_len channels frames p sched
      = Some (p', tr, st) ->
    forall tr1 available tr2,
      tr = tr1 ++ EvCheck available :: tr2 ->
      tr1 = [] \/ exists tr0, tr1 = tr0 ++ [EvWait].
Proof.
  induction sched as [| t sched IH]; intros p p' tr st Hrun tr1 a tr2 Htr.
  - injection Hrun as <- <- <-. destruct tr1; discriminate.
  - cbn [playback_loop] in Hrun.
    destruct (play_callbacks zero p (pt_callbacks t)) as [p1 |];
      cbn [bind] in Hrun; [| discriminate].
    destruct (_ >? buffer_len).
    + destruct (play_callbacks zero p1 (pt_callbacks_during t)) as [p2 |];
        cbn [bind] in Hrun; [| discriminate].
      destruct (std_copy _ _ _ _ _) as [staged |];
        cbn [bind] in Hrun; [| discriminate].
      destruct (enqueue _ _ _) as [[circ returned] |];
        cbn [bind] in Hrun; [| discriminate].
      destruct (pt_readf_frames t <? frames).
      * injection Hrun as <- <- <-.
        apply trace_head_split in Htr as [(-> & _) | (t1 & -> & Htr)];
          [now left |].
        apply trace_head_split in Htr as [(_ & [=] & _) | (t2 & -> & Htr)].
        apply trace_head_split in Htr as [(_ & [=] & _) | (t3 & -> & Htr)].
        destruct t3; discriminate.
      * destruct (playback_loop _ _ _ _ _ sched) as [[[p3 tr'] st'] |] eqn:Erec;
          cbn [bind] in Hrun; [| discriminate].
        injection Hrun as <- <- <-. cbn [app] in Htr.
        apply trace_head_split in Htr as [(-> & _) | (t1 & -> & Htr)];
          [now left |].
        apply trace_head_split in Htr as [(_ & [=] & _) | (t2 & -> & Htr)].
        apply trace_head_split in Htr as [(_ & [=] & _) | (t3 & -> & Htr)].
        apply trace_head_split in Htr as [(_ & [=] & _) | (t4 & -> & Htr)].
        right. destruct (IH _ _ _ _ Erec _ _ _ Htr) as [-> | (t0 & ->)].
        -- eexists [_; _; _]. reflexivity.
        -- eexists (_ :: _ :: _ :: _ :: t0). reflexivity.
    + destruct (playback_loop _ _ _ _ _ sched) as [[[p2 tr'] st'] |] eqn:Erec;
        cbn [bind] in Hrun; [| discriminate].
      injection Hrun as <- <- <-.
      apply trace_head_split in Htr as [(-> & _) | (t1 & -> & Htr)];
        [now left |].
      apply trace_head_split in Htr as [(_ & [=] & _) | (t2 & -> & Htr)].
      right. destruct (IH _ _ _ _ Erec _ _ _ Htr) as [-> | (t0 & ->)].
      * eexists [_]. reflexivity.
      * eexists (_ :: _ :: t0). reflexivity.
Qed.

(** X18.  The playback IO loop does not spin: in every run of
    [PlaybackProcess::start], each availability check other than the very
    first comes directly after a [wait] on the condition variable. *)
Theorem playback_waits_before_every_recheck
    (p p' : PlaybackProcess DataType) (sched : list (play_turn DataType))
    tr st tr1 (available : Z) tr2 :
  playback_start zero p sched = Some (p', tr, st) ->
  tr = tr1 ++ EvCheck available :: tr2 ->
  tr1 = [] \/ exists tr0, tr1 = tr0 ++ [EvWait].
Proof.
  unfold playback_start. intros Hrun Htr.
  destruct (pb_channels p =? 0); [discriminate |].
  eapply playback_loop_checks_after_wait; eassumption.
Qed.

Lemma record_loop_exit buffer_len frames sched :
  forall (p p' : RecordProcess DataType) tr,
    record_loop buffer_len frames p sched = Some (p', tr, Exited) ->
    exists tr0 buffer written,
      tr = tr0 ++ [EvWrite buffer frames written; EvSync]
      /\ written < frames.
Proof.
  induction sched as [| t sched IH]; intros p p' tr Hrun.
  - discriminate.
  - cbn [record_loop] in Hrun.
    destruct (rec_callbacks p (rt_callbacks t)) as [p1 |];
      cbn [bind] in Hrun; [| discriminate].
    destruct (_ >? to_size_t buffer_len).
    + destruct (rec_callbacks p1 (rt_callbacks_during t)) as [p1' |];
        cbn [bind] in Hrun; [| discriminate].
      destruct (dequeue _ _ _) as [[[circ buffer] returned] |];
        cbn [bind] in Hrun; [| discriminate].
      destruct (Z.ltb_spec (rt_writef_frames t) frames) as [Hshort | Hfull].
      * injection Hrun as <- <-.
        eexists [_; _], _, _. split; [reflexivity | assumption].
      * destruct (record_loop _ _ _ sched) as [[[p2 tr'] st'] |] eqn:Erec;
          cbn [bind] in Hrun; [| discriminate].
        injection Hrun as <- <- ->.
        destruct (IH _ _ _ Erec) as (tr0 & b & w & -> & Hlt).
        eexists (_ :: _ :: _ :: _ :: tr0), b, w.
        split; [reflexivity | assumption].
    + destruct (record_loop _ _ _ sched) as [[[p2 tr'] st'] |] eqn:Erec;
        cbn [bind] in Hrun; [| discriminate].
      injection Hrun as <- <- ->.
      destruct (IH _ _ _ Erec) as (tr0 & b & w & -> & Hlt).
      eexists (_ :: tr0), b, w. split; [reflexivity | assumption].
Qed.

(** X19.  The capture IO loop has no other way out than a short write:
    whenever [RecordProcess::start] has returned, its trace ends with a
    file write that transferred fewer frames than requested, the
    [writeSync] of that iteration and the final [wait]. *)
Theorem capture_exits_only_after_short_write
    (p p' : RecordProcess DataType) (sched : list (rec_turn DataType)) tr :
  record_start p sched = Some (p', tr, Exited) ->
  exists tr0 buffer requested written,
    tr = tr0 ++ [EvWrite buffer requested written; EvSync; EvWait]
    /\ written < requested.
Proof.
  unfold record_start. intros Hrun.
  destruct (rc_channels p =? 0); [discriminate |].
  destruct (record_loop _ _ p sched) as [[[p1 tr'] st'] |] eqn:Erec;
    cbn [bind] in Hrun; [| discriminate].
  destruct st'; [discriminate |]. injection Hrun as <- <-.
  destruct (record_loop_exit _ _ _ _ _ _ Erec) as (tr0 & b & w & -> & Hlt).
  do 4 eexists. split; [| exact Hlt].
  rewrite <- app_assoc. reflexivity.
Qed.

Lemma playback_loop_exit buffer_len channels frames sched :
  forall (p p' : PlaybackProcess DataType) tr,
    playback_loop zero buffer_len channels frames p sched
      = Some (p', tr, Exited) ->
    exists tr0 got buffer size returned,
      tr = tr0 ++ [EvRead frames got buffer; EvEnqueue buffer size returned]
      /\ got < frames.
Proof.
  induction sched as [| t sched IH]; intros p p' tr Hrun.
  - discriminate.
  - cbn [playback_loop] in Hrun.
    destruct (play_callbacks zero p (pt_callbacks t)) as [p1 |];
      cbn [bind] in Hrun; [| discriminate].
    destruct (_ >? buffer_len).
    + destruct (play_callbacks zero p1 (pt_callbacks_during t)) as [p2 |];
        cbn [bind] in Hrun; [| discriminate].
      destruct (std_copy _ _ _ _ _) as [staged |];
        cbn [bind] in Hrun; [| discriminate].
      destruct (enqueue _ _ _) as [[circ returned] |];
        cbn [bind] in Hrun; [| discriminate].
      destruct (Z.ltb_spec (pt_readf_frames t) frames) as [Hshort | Hwhole].
      * injection Hrun as <- <-.
        eexists [_], _, _, _, _. split; [reflexivity | assumption].
      * destruct (playback_loop _ _ _ _ _ sched) as [[[p3 tr'] st'] |] eqn:Erec;
          cbn [bind] in Hrun; [| discriminate].
        injection Hrun as <- <- ->.
        destruct (IH _ _ _ Erec) as (tr0 & g & b & sz & r & -> & Hlt).
        eexists (_ :: _ :: _ :: _ :: tr0), g, b, sz, r.
        split; [reflexivity | assumption].
    + destruct (playback_loop _ _ _ _ _ sched) as [[[p2 tr'] st'] |] eqn:Erec;
        cbn [bind] in Hrun; [| discriminate].
      injection Hrun as <- <- ->.
      destruct (IH _ _ _ Erec) as (tr0 & g & b & sz & r & -> & Hlt).
      eexists (_ :: _ :: tr0), g, b, sz, r.
      split; [reflexivity | assumption].
Qed.

(** X20.  The playback IO loop has no other way out than a short read:
    whenever [PlaybackProcess::start] has returned, its trace ends with a
    file read that transferred fewer frames than requested and the
    [enqueue] of what that read left in the staging buffer. *)
Theorem playback_exits_only_after_short_read
    (p p' : PlaybackProcess DataType) (sched : list (play_turn DataType)) tr :
  playback_start zero p sched = Some (p', tr, Exited) ->
  exists tr0 requested got buffer size returned,
    tr = tr0 ++ [EvRead requested got buffer;
                 EvEnqueue buffer size returned]
    /\ got < requested.
Proof.
  unfold playback_start. intros Hrun.
  destruct (pb_channels p =? 0); [discriminate |].
  destruct (playback_loop_exit _ _ _ _ _ _ _ Hrun)
    as (tr0 & g & b & sz & r & -> & Hlt).
  do 6 eexists. split; [reflexivity | exact Hlt].
Qed.

(** *** Nothing is lost on the IO side *)

Lemma room_covers buffer_len size available :
  0 <= size <= buffer_len ->
  SizeT.in_range available -> buffer_len < to_sf_count available ->
  Z.min size available = size.
Proof.
  intros Hs Ha Hroom. unfold to_sf_count in Hroom.
  unfold SizeT.in_range in Ha. rewrite modulus_eq in Ha.
  change (2 ^ 64) with 18446744073709551616 in *.
  destruct (Z.ltb_spec available (2 ^ 63)); lia.
Qed.

Lemma whole_frames_fit buffer_len channels frames :
  0 < channels -> 0 <= buffer_len < 2 ^ 63 ->
  0 <= frames <= Z.quot buffer_len channels ->
  0 <= frames * channels <= buffer_len
  /\ to_size_t (frames * channels) = frames * channels.
Proof.
  intros Hc Hb Hf. rewrite Z.quot_div_nonneg in Hf by lia.
  pose proof (Z.mul_div_le buffer_len channels Hc) as Hq.
  assert (Hs : 0 <= frames * channels <= buffer_len) by nia.
  split; [assumption |].
  change (2 ^ 63) with 9223372036854775808 in *.
  unfold to_size_t. apply word_small. lia.
Qed.

Lemma playback_loop_enqueues_whole buffer_len channels sched :
  0 < channels -> 0 <= buffer_len < 2 ^ 63 ->
  forall p p' tr st,
    playback_loop zero buffer_len channels (Z.quot buffer_len channels)
                  p sched = Some (p', tr, st) ->
    quiet_reads sched ->
    Forall (fun t => 0 <= pt_readf_frames t <= Z.quot buffer_len channels)
           sched ->
    forall buffer size returned,
      In (EvEnqueue buffer size returned) tr -> returned = size.
Proof.
  intros Hc Hb.
  induction sched as [| t sched IH];
    intros p p' tr st Hrun Hquiet Hfr buf size ret Hin.
  - injection Hrun as <- <- <-. destruct Hin.
  - inversion Hquiet as [| ? ? Hq Hqs]; subst.
    inversion Hfr as [| ? ? Hf Hfs]; subst.
    cbn [playback_loop] in Hrun.
    destruct (play_callbacks zero p (pt_callbacks t)) as [p1 |];
      cbn [bind] in Hrun; [| discriminate].
    destruct (Z.gtb_spec
                (to_sf_count (get_write_available (pb_circ_buffer_ p1)))
                buffer_len) as [Hroom | Hfull].
    + rewrite Hq in Hrun. cbn [play_callbacks bind] in Hrun.
      destruct (std_copy _ _ _ _ _) as [staged |];
        cbn [bind] in Hrun; [| discriminate].
      destruct (enqueue _ _ _) as [[circ returned] |] eqn:Eenq;
        cbn [bind] in Hrun; [| discriminate].
      apply enqueue_shape in Eenq as (_ & _ & _ & ->).
      destruct (whole_frames_fit _ _ _ Hc Hb Hf) as [Hfit Hsz].
      assert (Hmin : Z.min (to_size_t (pt_readf_frames t * channels))
                       (get_write_available (pb_circ_buffer_ p1))
                     = to_size_t (pt_readf_frames t * channels)).
      { rewrite Hsz. eapply room_covers; eauto. apply wrap_range. }
      destruct (pt_readf_frames t <? _).
      * injection Hrun as <- <- <-.
        destruct Hin as [[=] | [[=] | [[= <- <- <-] | []]]]. exact Hmin.
      * destruct (playback_loop _ _ _ _ _ sched) as [[[p3 tr'] st'] |] eqn:Erec;
          cbn [bind] in Hrun; [| discriminate].
        injection Hrun as <- <- <-.
        destruct Hin as [[=] | [[=] | [[= <- <- <-] | [[=] | Hin]]]];
          [exact Hmin | eapply IH; eassumption].
    + destruct (playback_loop _ _ _ _ _ sched) as [[[p2 tr'] st'] |] eqn:Erec;
        cbn [bind] in Hrun; [| discriminate].
      injection Hrun as <- <- <-.
      destruct Hin as [[=] | [[=] | Hin]]. eapply IH; eassumption.
Qed.

(** X21.  The playback IO loop loses no file data to a full ring buffer:
    when no callback runs between an availability check and the
    [enqueue] it guards, and every read returns between 0 and the
    requested number of frames, each [enqueue] of the loop returns the full
    size it was given. *)
Theorem playback_enqueues_every_sample_read
    (p p' : PlaybackProcess DataType) (sched : list (play_turn DataType))
    tr st (buffer : list DataType) (size returned : Z) :
  playback_start zero p sched = Some (p', tr, st) ->
  0 < pb_channels p -> len (pb_file_io_buffer_ p) < 2 ^ 63 ->
  quiet_reads sched ->
  Forall (fun t => 0 <= pt_readf_frames t
                   <= Z.quot (len (pb_file_io_buffer_ p)) (pb_channels p))
         sched ->
  In (EvEnqueue buffer size returned) tr ->
  returned = size.
Proof.
  unfold playback_start. intros Hrun Hc Hlen Hquiet Hfr Hin.
  destruct (Z.eqb_spec (pb_channels p) 0); [lia |].
  destruct (staging_length_as_count _ Hlen) as [Hbl _]. rewrite Hbl in Hrun.
  eapply (playback_loop_enqueues_whole (len (pb_file_io_buffer_ p))
            (pb_channels p) sched); try eassumption.
  unfold len in *. lia.
Qed.

Lemma record_loop_dequeues_whole buffer_len frames sched :
  forall (p p' : RecordProcess DataType) tr st,
    record_loop buffer_len frames p sched = Some (p', tr, st) ->
    quiet_drains sched ->
    forall size returned,
      In (EvDequeue size returned) tr -> returned = size.
Proof.
  induction sched as [| t sched IH];
    intros p p' tr st Hrun Hquiet size ret Hin.
  - injection Hrun as <- <- <-. destruct Hin.
  - inversion Hquiet as [| ? ? Hq Hqs]; subst.
    cbn [record_loop] in Hrun.
    destruct (rec_callbacks p (rt_callbacks t)) as [p1 |];
      cbn [bind] in Hrun; [| discriminate].
    destruct (Z.gtb_spec (get_read_available (rc_circ_buffer_ p1))
                (to_size_t buffer_len)) as [Hdata | Hnone].
    + rewrite Hq in Hrun. cbn [rec_callbacks bind] in Hrun.
      destruct (dequeue _ _ _) as [[[circ buffer] returned] |] eqn:Edeq;
        cbn [bind] in Hrun; [| discriminate].
      apply dequeue_shape in Edeq as (_ & _ & _ & ->).
      rewrite Z.min_l in Hrun by lia.
      destruct (rt_writef_frames t <? frames).
      * injection Hrun as <- <- <-.
        destruct Hin as [[=] | [[= <- <-] | [[=] | [[=] | []]]]].
        reflexivity.
      * destruct (record_loop _ _ _ sched) as [[[p2 tr'] st'] |] eqn:Erec;
          cbn [bind] in Hrun; [| discriminate].
        injection Hrun as <- <- <-.
        destruct Hin as [[=] | [[= <- <-] | [[=] | [[=] | Hin]]]];
          [reflexivity | eapply IH; eassumption].
    + destruct (record_loop _ _ _ sched) as [[[p2 tr'] st'] |] eqn:Erec;
        cbn [bind] in Hrun; [| discriminate].
      injection Hrun as <- <- <-.
      destruct Hin as [[=] | Hin]. eapply IH; eassumption.
Qed.

(** X22.  The capture IO loop hands the file whole staging buffers: when
    no callback runs between an availability check and the [dequeue] it
    guards, each [dequeue] of the loop returns the full staging length it
    asked for. *)
Theorem capture_dequeues_whole_buffers
    (p p' : RecordProcess DataType) (sched : list (rec_turn DataType))
    tr st (size returned : Z) :
  record_start p sched = Some (p', tr, st) ->
  quiet_drains sched ->
  In (EvDequeue size returned) tr ->
  returned = size.
Proof.
  unfold record_start. intros Hrun Hquiet Hin.
  destruct (rc_channels p =? 0); [discriminate |].
  destruct (record_loop _ _ p sched) as [[[p1 tr'] st'] |] eqn:Erec;
    cbn [bind] in Hrun; [| discriminate].
  assert (Hin' : In (EvDequeue size returned) tr').
  { destruct st'; injection Hrun as <- <- <-; [assumption |].
    apply in_app_or in Hin as [Hin | [[=] | []]]. assumption. }
  eapply record_loop_dequeues_whole; eassumption.
Qed.

(** *** The sessions stay in bounds *)

Lemma record_loop_safe buffer_len frames sched :
  forall p : RecordProcess DataType,
    wf (rc_circ_buffer_ p) ->
    to_size_t buffer_len = len (rc_file_io_buffer_ p) ->
    Forall (rec_turn_ok (rc_channels p)) sched ->
    exists p' tr st,
      record_loop buffer_len frames p sched = Some (p', tr, st)
      /\ wf (rc_circ_buffer_ p')
      /\ rc_channels p' = rc_channels p
      /\ len (rc_file_io_buffer_ p') = len (rc_file_io_buffer_ p).
Proof.
  induction sched as [| t sched IH]; intros p H Hlen Hok;
    cbn [record_loop]; [eauto 8 |].
  inversion Hok as [| ? ? [Ht Hmid] Hrest]; subst.
  destruct (rec_callbacks_defined _ p H Ht) as (p1 & E & H1 & Hch & Hst).
  rewrite E. cbn [bind]. rewrite <- Hch in Hrest, Hmid.
  destruct (get_read_available (rc_circ_buffer_ p1) >? to_size_t buffer_len).
  - destruct (rec_callbacks_defined _ p1 H1 Hmid)
      as (p1' & E' & H1' & Hch' & Hst').
    rewrite E'. cbn [bind]. rewrite <- Hch' in Hrest.
    destruct (dequeue_spec (rc_circ_buffer_ p1') (rc_file_io_buffer_ p1')
                (to_size_t buffer_len) H1')
      as (cb' & buffer & Ed & H' & _ & _ & _ & Hl & _);
      [apply wrap_range | rewrite Hst', Hst; lia |].
    rewrite Ed. cbn [bind].
    destruct (rt_writef_frames t <? frames).
    + do 3 eexists. split; [reflexivity |]. cbn.
      split; [assumption |]. split; congruence.
    + destruct (IH (mkRecordProcess (rc_channels p1') cb' buffer
                      (rc_io_counter_ p1')))
        as (p2 & tr & st & E2 & H2 & Hch2 & Hl2);
        [exact H' | cbn; congruence | exact Hrest |].
      rewrite E2. cbn [bind]. do 3 eexists. split; [reflexivity |].
      cbn in Hch2, Hl2. split; [assumption |]. split; congruence.
  - destruct (IH p1) as (p2 & tr & st & E2 & H2 & Hch2 & Hl2);
      [assumption | congruence | assumption |].
    rewrite E2. cbn [bind]. do 3 eexists. split; [reflexivity |].
    split; [assumption |]. split; congruence.
Qed.

(** X23.  A capture session never leaves a buffer: from a recorder in
    order, with callbacks whose input covers the frames they announce,
    every schedule has a run of [RecordProcess::start] (no copy goes out of
    bounds in the callbacks or in the loop), and the recorder it leaves is
    in order again. *)
Theorem capture_session_stays_in_bounds
    (p : RecordProcess DataType) (sched : list (rec_turn DataType)) :
  recorder_ok p -> Forall (rec_turn_ok (rc_channels p)) sched ->
  exists p' tr st,
    record_start p sched = Some (p', tr, st) /\ recorder_ok p'.
Proof.
  intros (H & Hch & Hlen) Hok. unfold record_start.
  destruct (Z.eqb_spec (rc_channels p) 0); [contradiction |].
  destruct (staging_length_as_count _ Hlen) as [_ Hl].
  destruct (record_loop_safe
              (to_sf_count (len (rc_file_io_buffer_ p)))
              (Z.quot (to_sf_count (len (rc_file_io_buffer_ p)))
                      (rc_channels p))
              sched p H Hl Hok) as (p' & tr & st & E & H' & Hch' & Hl').
  rewrite E. cbn [bind].
  assert (recorder_ok p') by (unfold recorder_ok; rewrite Hch', Hl'; auto).
  destruct st; eauto.
Qed.

Lemma playback_loop_safe buffer_len channels sched :
  0 < channels -> 0 <= buffer_len < 2 ^ 63 ->
  forall p : PlaybackProcess DataType,
    wf (pb_circ_buffer_ p) ->
    pb_channels p = channels ->
    len (pb_file_io_buffer_ p) = buffer_len ->
    Forall (play_turn_ok channels buffer_len) sched ->
    exists p' tr st,
      playback_loop zero buffer_len channels (Z.quot buffer_len channels)
                    p sched = Some (p', tr, st)
      /\ wf (pb_circ_buffer_ p')
      /\ pb_channels p' = channels
      /\ len (pb_file_io_buffer_ p') = buffer_len.
Proof.
  intros Hc Hb.
  induction sched as [| t sched IH]; intros p H Hch Hlen Hok;
    cbn [playback_loop]; [eauto 8 |].
  inversion Hok as [| ? ? (Hcb & Hmid & Hdata & Hfr) Hrest]; subst.
  destruct (play_callbacks_defined zero _ p H Hcb) as (p0 & E & H0 & Hch0 & Hst0).
  rewrite E. cbn [bind].
  destruct (to_sf_count (get_write_available (pb_circ_buffer_ p0))
            >? len (pb_file_io_buffer_ p)).
  - rewrite <- Hch0 in Hmid.
    destruct (play_callbacks_defined zero _ p0 H0 Hmid)
      as (p1 & E' & H1 & Hch1 & Hst).
    rewrite E'. cbn [bind].
    rewrite Hch0 in Hch1. rewrite Hst0 in Hst.
    destruct (std_copy_some (pt_readf_data t) 0 (len (pt_readf_data t))
                (pb_file_io_buffer_ p1) 0) as [buffer Ec];
      try (unfold len; lia); [rewrite Hst; lia |].
    rewrite Ec. cbn [bind]. apply std_copy_spec in Ec as [Hl _].
    destruct (whole_frames_fit _ _ _ Hc Hb Hfr) as [Hpay Hsz].
    destruct (enqueue_spec (pb_circ_buffer_ p1) buffer
                (to_size_t (pt_readf_frames t * pb_channels p)) H1)
      as (cb' & Ee & H' & _); [lia | rewrite Hsz, Hl, Hst; lia |].
    rewrite Ee. cbn [bind].
    destruct (pt_readf_frames t <? _).
    + do 3 eexists. split; [reflexivity |]. cbn.
      split; [assumption |]. split; congruence.
    + destruct (IH (mkPlaybackProcess (pb_channels p1) cb' buffer
                      (pb_io_counter_ p1)))
        as (p2 & tr & st & E2 & H2 & Hch2 & Hl2);
        [exact H' | exact Hch1 | cbn; congruence | exact Hrest |].
      rewrite E2. cbn [bind]. do 3 eexists. split; [reflexivity |]. auto.
  - destruct (IH p0) as (p2 & tr & st & E2 & H2 & Hch2 & Hl2);
      [exact H0 | exact Hch0 | congruence | exact Hrest |].
    rewrite E2. cbn [bind]. do 3 eexists. split; [reflexivity |]. auto.
Qed.

(** X24.  A playback session never leaves a buffer: from a player in
    order, with callbacks whose output covers the frames they ask for and
    reads that store at most the frames requested, every schedule has a
    run of [PlaybackProcess::start], and the player it leaves is in order
    again. *)
Theorem playback_session_stays_in_bounds
    (p : PlaybackProcess DataType) (sched : list (play_turn DataType)) :
  player_ok p ->
  Forall (play_turn_ok (pb_channels p) (len (pb_file_io_buffer_ p))) sched ->
  exists p' tr st,
    playback_start zero p sched = Some (p', tr, st) /\ player_ok p'.
Proof.
  intros (H & Hch & Hlen) Hok. unfold playback_start.
  destruct (Z.eqb_spec (pb_channels p) 0); [lia |].
  destruct (staging_length_as_count _ Hlen) as [-> _].
  destruct (playback_loop_safe (len (pb_file_io_buffer_ p)) (pb_channels p)
              sched Hch) with (p := p)
    as (p' & tr & st & E & H' & Hch' & Hl'); try assumption; try reflexivity.
  { unfold len in *. lia. }
  exists p', tr, st. split; [exact E |].
  unfold player_ok. rewrite Hch', Hl'. auto.
Qed.

(** *** The sessions as the constructors size them *)




(** *** From the file to the loudspeaker *)

(** X27.  The first period of a playback session plays the file: from a
    player in order whose ring buffer is empty and whose staging buffer,
    a whole number of frames, fits in the storage before its end and
    leaves a slot free, one quiet turn of the IO loop on which the file
    fills the staging buffer, followed by a callback that asks for fewer
    samples than that, leaves the first samples of the file, in order, at
    the head of the callback's output. *)
Theorem playback_first_period_plays_the_file
    (p : PlaybackProcess DataType) (t : play_turn DataType)
    (output : list DataType) (n_frame : Z) (try_lock : bool) :
  player_ok p ->
  read_head_ (pb_circ_buffer_ p) = write_head_ (pb_circ_buffer_ p) ->
  write_head_ (pb_circ_buffer_ p) + len (pb_file_io_buffer_ p) + 1
    < capacity (pb_circ_buffer_ p) ->
  pt_callbacks t = [] -> pt_callbacks_during t = [] ->
  len (pt_readf_data t) = len (pb_file_io_buffer_ p) ->
  pt_readf_frames t = Z.quot (len (pb_file_io_buffer_ p)) (pb_channels p) ->
  pt_readf_frames t * pb_channels p = len (pb_file_io_buffer_ p) ->
  SizeT.mul n_frame (to_size_t (pb_channels p)) < len (pb_file_io_buffer_ p) ->
  SizeT.mul n_frame (to_size_t (pb_channels p)) <= len output ->
  exists p1 tr p2 out notified,
    playback_start zero p [t] = Some (p1, tr, Running)
    /\ read_frames zero p1 output n_frame try_lock = Some (p2, out, notified)
    /\ firstn (Z.to_nat (SizeT.mul n_frame (to_size_t (pb_channels p)))) out
       = firstn (Z.to_nat (SizeT.mul n_frame (to_size_t (pb_channels p))))
                (pt_readf_data t).
Proof.
  intros (H & Hch & Hlen) Hempty Hroom Hcb Hmid Hdata Hfr Hwhole Hn Hout.
  set (n := SizeT.mul n_frame (to_size_t (pb_channels p))) in *.
  assert (Hn0 : 0 <= n) by apply wrap_range.
  destruct (wf_heads _ H) as [Hr Hw].
  pose proof (wf_capacity_bounds _ H) as HC.
  assert (Hl0 : 0 <= len (pb_file_io_buffer_ p)) by (unfold len; lia).
  assert (Hra : get_read_available (pb_circ_buffer_ p) = 0)
    by (rewrite read_available_abs by assumption; lia).
  assert (Hwa : get_write_available (pb_circ_buffer_ p)
                = capacity (pb_circ_buffer_ p) - 1)
    by (rewrite write_available_eq by assumption; lia).
  destruct (staging_length_as_count _ Hlen) as [Hbl Hsz].
  rewrite Hbl in Hsz.
  (* the read fills the staging buffer *)
  destruct (std_copy_some (pt_readf_data t) 0 (len (pt_readf_data t))
              (pb_file_io_buffer_ p) 0) as [buffer Ec];
    try (unfold len in *; lia).
  destruct (std_copy_spec _ _ _ _ _ _ Ec) as [Lb Nb].
  (* the enqueue stores all of it *)
  destruct (enqueue_spec (pb_circ_buffer_ p) buffer
              (len (pb_file_io_buffer_ p)) H Hl0)
    as (cb1 & Ee & H1 & Hcap1 & Hr1 & Hw1 & Hcells); [lia |].
  rewrite Z.min_l in * by lia. rewrite mod_lo in Hw1 by lia.
  assert (Hra1 : get_read_available cb1 = len (pb_file_io_buffer_ p))
    by (rewrite read_available_abs by assumption; lia).
  (* the callback takes the head of it *)
  destruct (dequeue_spec cb1 output n H1 Hn0)
    as (cb2 & out & Ed & _ & _ & _ & _ & Hlo & Hhead & _); [lia |].
  rewrite Z.min_l in * by lia.
  assert (Hrun : playback_start zero p [t]
                 = Some (mkPlaybackProcess (pb_channels p) cb1 buffer
                           (pb_io_counter_ p),
                         [EvCheck (capacity (pb_circ_buffer_ p) - 1);
                          EvRead (pt_readf_frames t) (pt_readf_frames t) buffer;
                          EvEnqueue buffer (len (pb_file_io_buffer_ p))
                            (len (pb_file_io_buffer_ p));
                          EvWait],
                         Running)).
  { unfold playback_start.
    destruct (Z.eqb_spec (pb_channels p) 0); [lia |].
    rewrite Hbl, <- Hfr. cbn [playback_loop].
    rewrite Hcb. cbn [play_callbacks bind]. rewrite Hwa.
    assert (Hcnt : to_sf_count (capacity (pb_circ_buffer_ p) - 1)
                   = capacity (pb_circ_buffer_ p) - 1).
    { unfold to_sf_count. change (2 ^ 63) with 9223372036854775808.
      destruct (Z.ltb_spec (capacity (pb_circ_buffer_ p) - 1)
                  9223372036854775808); lia. }
    rewrite Hcnt.
    destruct (Z.gtb_spec (capacity (pb_circ_buffer_ p) - 1)
                (len (pb_file_io_buffer_ p))); [| lia].
    rewrite Hmid. cbn [play_callbacks bind]. rewrite Ec. cbn [bind].
    rewrite Hwhole, Hsz, Ee. cbn [bind]. rewrite Z.ltb_irrefl. cbn [bind app].
    reflexivity. }
  assert (Hcall : exists p2 notified,
             read_frames zero
               (mkPlaybackProcess (pb_channels p) cb1 buffer (pb_io_counter_ p))
               output n_frame try_lock = Some (p2, out, notified)).
  { unfold read_frames. cbv zeta.
    cbn [pb_channels pb_circ_buffer_ pb_io_counter_ pb_file_io_buffer_].
    fold n. rewrite Hra1.
    destruct (Z.gtb_spec (len (pb_file_io_buffer_ p)) n); [| lia].
    rewrite Ed. cbn [bind].
    destruct ((pb_io_counter_ p >=? SizeT.mul PLAY_BUFFER_FACTOR 3 / 4)
              && try_lock); eauto. }
  destruct Hcall as (p2 & notified & Hcall).
  do 5 eexists. split; [exact Hrun |]. split; [exact Hcall |].
  apply nth_error_ext. intros i. rewrite !nth_error_firstn.
  destruct (Nat.ltb_spec i (Z.to_nat n)); [| reflexivity].
  rewrite <- !zth_of_nat. rewrite Hhead by lia.
  rewrite Hr1, Hempty, Hcells by lia.
  rewrite Nb by lia.
  destruct (Z.leb_spec 0 (Z.of_nat i)); [| lia].
  destruct (Z.ltb_spec (Z.of_nat i) (0 + (len (pt_readf_data t) - 0)));
    [| lia].
  cbn [andb]. f_equal. lia.
Qed.

(** X28.  The first staging buffer of a capture session reaches the file:
    from a recorder in order whose ring buffer is empty, a callback that
    delivers more samples than the staging buffer holds, all of them
    before the end of the storage, is followed on the next quiet turn of
    the IO loop by a file write whose buffer is exactly the first
    staging-buffer's worth of the captured samples, in order. *)
Theorem capture_first_buffer_reaches_the_file
    (p : RecordProcess DataType) (t : rec_turn DataType)
    (input : list DataType) (n_frame : Z) (try_lock : bool) :
  recorder_ok p ->
  read_head_ (rc_circ_buffer_ p) = write_head_ (rc_circ_buffer_ p) ->
  rt_callbacks t = [(input, n_frame, try_lock)] ->
  rt_callbacks_during t = [] ->
  SizeT.mul n_frame (to_size_t (rc_channels p)) <= len input ->
  len (rc_file_io_buffer_ p) < SizeT.mul n_frame (to_size_t (rc_channels p)) ->
  write_head_ (rc_circ_buffer_ p)
    + SizeT.mul n_frame (to_size_t (rc_channels p))
    < capacity (rc_circ_buffer_ p) ->
  exists p' tr st,
    record_start p [t] = Some (p', tr, st)
    /\ In (EvWrite (firstn (length (rc_file_io_buffer_ p)) input)
                   (Z.quot (len (rc_file_io_buffer_ p)) (rc_channels p))
                   (rt_writef_frames t)) tr.
Proof.
  intros (H & Hch & Hlen) Hempty Hcb Hmid Hin Hmore Hroom.
  set (k := SizeT.mul n_frame (to_size_t (rc_channels p))) in *.
  set (bl := len (rc_file_io_buffer_ p)) in *.
  assert (Hk : 0 <= k) by apply wrap_range.
  assert (Hbl0 : 0 <= bl) by (unfold bl, len; lia).
  destruct (wf_heads _ H) as [Hr Hw].
  assert (Hwa : get_write_available (rc_circ_buffer_ p)
                = capacity (rc_circ_buffer_ p) - 1).
  { rewrite write_available_eq, read_available_abs by assumption. lia. }
  destruct (staging_length_as_count _ Hlen) as [Hcnt Hsz].
  fold bl in Hcnt, Hsz. rewrite Hcnt in Hsz.
  destruct (enqueue_spec (rc_circ_buffer_ p) input k H Hk)
    as (cb1 & Ee & H1 & Hcap1 & Hr1 & Hw1 & Hcells); [lia |].
  rewrite Z.min_l in * by lia. rewrite mod_lo in Hw1 by lia.
  assert (Hra1 : get_read_available cb1 = k)
    by (rewrite read_available_abs by assumption; lia).
  destruct (dequeue_spec cb1 (rc_file_io_buffer_ p) bl H1 Hbl0)
    as (cb2 & buffer & Ed & _ & _ & _ & _ & Hlb & Hhead & _); [lia |].
  rewrite Z.min_l in * by lia.
  assert (Hbuf : buffer = firstn (length (rc_file_io_buffer_ p)) input).
  { apply nth_error_ext. intros i. rewrite nth_error_firstn.
    destruct (Nat.ltb_spec i (length (rc_file_io_buffer_ p))) as [Hi | Hi].
    - rewrite <- !zth_of_nat. rewrite Hhead by (unfold bl, len; lia).
      rewrite Hr1, Hempty. apply Hcells. unfold bl, len in *. lia.
    - apply nth_error_None. fold bl in Hlb. unfold bl, len in Hlb. lia. }
  subst buffer.
  unfold record_start. fold bl.
  destruct (Z.eqb_spec (rc_channels p) 0); [contradiction |].
  rewrite Hcnt. cbn [record_loop]. rewrite Hcb. cbn [rec_callbacks].
  unfold write_frames. cbv zeta. fold k. rewrite Ee. cbn [bind].
  destruct ((rc_io_counter_ p >=? REC_BUFFER_FACTOR) && try_lock);
    cbn [bind rc_circ_buffer_ rc_file_io_buffer_ rc_channels rc_io_counter_];
    rewrite Hra1, Hsz;
    (destruct (Z.gtb_spec k bl); [| lia]);
    rewrite Hmid; cbn [rec_callbacks bind rc_circ_buffer_ rc_file_io_buffer_];
    rewrite Ed; cbn [bind];
    destruct (rt_writef_frames t <? Z.quot bl (rc_channels p));
    cbn [bind app]; do 3 eexists; (split; [reflexivity |]); cbn; auto.
Qed.

End MoreStreamFacts.

(** *** The further properties on concrete sessions *)

Lemma idle_recorder_ok : recorder_ok idle_recorder.
Proof. by_evaluation. Qed.

Lemma player_at_end_of_file_ok : player_ok player_at_end_of_file.
Proof. by_evaluation. Qed.

Lemma capture_notifies_every_fifth_callback_witness :
  exists p',
    rec_notifications idle_recorder capture_periods
      = Some (p', [false; false; false; false; true; false; false])
    /\ rc_io_counter_ p' = 2.
Proof.
  apply (capture_notifies_every_fifth_callback idle_recorder capture_periods).
  - by_evaluation.
  - repeat constructor; vm_compute; discriminate.
  - repeat constructor.
  - reflexivity.
Defined.

Lemma playback_notifies_every_fourth_callback_witness :
  exists p',
    play_notifications 0 player_with_two_frames playback_periods
      = Some (p', [false; false; false; true; false; false])
    /\ pb_io_counter_ p' = 2.
Proof.
  apply (playback_notifies_every_fourth_callback 0 player_with_two_frames
           playback_periods).
  - by_evaluation.
  - repeat constructor; vm_compute; discriminate.
  - repeat constructor.
  - reflexivity.
Defined.

Lemma playback_waits_before_every_recheck_witness :
  exists p' tr1 tr2,
    playback_start 0 player_at_end_of_file two_turn_schedule
      = Some (p', tr1 ++ EvCheck 7 :: tr2, Running)
    /\ (tr1 = [] \/ exists tr0, tr1 = tr0 ++ [EvWait]).
Proof.
  eexists.
  exists [EvCheck 15; EvRead 4 4 [1; 2; 3; 4; 5; 6; 7; 8];
          EvEnqueue [1; 2; 3; 4; 5; 6; 7; 8] 8 8; EvWait], [EvWait].
  split; [vm_compute; reflexivity |].
  eapply (playback_waits_before_every_recheck 0 player_at_end_of_file _
            two_turn_schedule _ Running _ 7 [EvWait]).
  - vm_compute. reflexivity.
  - reflexivity.
Defined.

Lemma capture_exits_only_after_short_write_witness :
  exists tr0 buffer requested written,
    [EvCheck 6; EvDequeue 4 4; EvWrite [1; 2; 3; 4] 4 3; EvSync; EvWait]
    = tr0 ++ [EvWrite buffer requested written; EvSync; EvWait]
    /\ written < requested.
Proof.
  eapply (capture_exits_only_after_short_write idle_recorder _
            short_write_schedule).
  vm_compute. reflexivity.
Defined.

Lemma playback_exits_only_after_short_read_witness :
  exists tr0 requested got buffer size returned,
    [EvCheck 15; EvRead 4 3 [1; 2; 3; 4; 5; 6; 0; 0];
     EvEnqueue [1; 2; 3; 4; 5; 6; 0; 0] 6 6]
    = tr0 ++ [EvRead requested got buffer; EvEnqueue buffer size returned]
    /\ got < requested.
Proof.
  eapply (playback_exits_only_after_short_read 0 player_at_end_of_file _
            end_of_file_schedule).
  vm_compute. reflexivity.
Defined.

Lemma playback_enqueues_every_sample_read_witness :
  exists p' tr st buffer size returned,
    playback_start 0 player_at_end_of_file two_turn_schedule
      = Some (p', tr, st)
    /\ In (EvEnqueue buffer size returned) tr
    /\ returned = size.
Proof.
  do 3 eexists. exists [1; 2; 3; 4; 5; 6; 7; 8], 8, 8.
  split; [vm_compute; reflexivity |].
  split; [cbn; auto |].
  eapply (playback_enqueues_every_sample_read 0 player_at_end_of_file _
            two_turn_schedule _ _ [1; 2; 3; 4; 5; 6; 7; 8] 8 8).
  - vm_compute. reflexivity.
  - reflexivity.
  - vm_compute. reflexivity.
  - repeat constructor.
  - repeat constructor; vm_compute; discriminate.
  - cbn. auto.
Defined.

Lemma capture_dequeues_whole_buffers_witness :
  exists p' tr st size returned,
    record_start idle_recorder short_write_schedule = Some (p', tr, st)
    /\ In (EvDequeue size returned) tr
    /\ returned = size.
Proof.
  do 3 eexists. exists 4, 4.
  split; [vm_compute; reflexivity |].
  split; [cbn; auto |].
  eapply (capture_dequeues_whole_buffers idle_recorder _
            short_write_schedule _ _ 4 4).
  - vm_compute. reflexivity.
  - repeat constructor.
  - cbn. auto.
Defined.

Lemma capture_session_stays_in_bounds_witness :
  exists p' tr st,
    record_start idle_recorder short_write_schedule = Some (p', tr, st)
    /\ recorder_ok p'.
Proof.
  apply (capture_session_stays_in_bounds idle_recorder short_write_schedule).
  - exact idle_recorder_ok.
  - repeat constructor; vm_compute; discriminate.
Defined.

Lemma playback_session_stays_in_bounds_witness :
  exists p' tr st,
    playback_start 0 player_at_end_of_file two_turn_schedule
      = Some (p', tr, st)
    /\ player_ok p'.
Proof.
  apply (playback_session_stays_in_bounds 0 player_at_end_of_file
           two_turn_schedule).
  - exact player_at_end_of_file_ok.
  - repeat constructor; vm_compute; discriminate.
Defined.



Lemma playback_first_period_plays_the_file_witness :
  exists p1 tr p2 out notified,
    playback_start 0 player_at_end_of_file [full_read_turn]
      = Some (p1, tr, Running)
    /\ read_frames 0 p1 [9; 9] 1 false = Some (p2, out, notified)
    /\ firstn 2 out = [1; 2].
Proof.
  apply (playback_first_period_plays_the_file 0 player_at_end_of_file
           full_read_turn [9; 9] 1 false).
  - exact player_at_end_of_file_ok.
  - reflexivity.
  - vm_compute. reflexivity.
  - reflexivity.
  - reflexivity.
  - reflexivity.
  - reflexivity.
  - reflexivity.
  - vm_compute. reflexivity.
  - vm_compute. discriminate.
Defined.

Lemma capture_first_buffer_reaches_the_file_witness :
  exists p' tr st,
    record_start idle_recorder [six_frames_turn] = Some (p', tr, st)
    /\ In (EvWrite [1; 2; 3; 4] 4 3) tr.
Proof.
  apply (capture_first_buffer_reaches_the_file idle_recorder six_frames_turn
           [1; 2; 3; 4; 5; 6] 6 false).
  - exact idle_recorder_ok.
  - reflexivity.
  - reflexivity.
  - reflexivity.
  - vm_compute. discriminate.
  - vm_compute. reflexivity.
  - vm_compute. reflexivity.
Defined.

(** ** The formatting helpers of audio_device.cc *)

Lemma string_append_assoc (a b c : String.string) :
  String.append (String.append a b) c = String.append a (String.append b c).
Proof. induction a as [| ch a IH]; cbn; [reflexivity | now rewrite IH]. Qed.

Lemma string_append_empty (a : String.string) :
  String.append a String.EmptyString = a.
Proof. induction a as [| ch a IH]; cbn; [reflexivity | now rewrite IH]. Qed.

Section AudioDeviceFacts.
Context {DataType : Type}.
Variable to_string : DataType -> String.string.

Lemma vec_to_str_from (rest : list DataType) :
  forall (done : list DataType) (out : String.string),
    SizeT.in_range (len (done ++ rest)) ->
    fold_left (vec_to_str_step to_string (done ++ rest))
              (seq (length done) (length rest)) out
    = String.append out (String.concat ", "%string (map to_string rest)).
Proof.
  induction rest as [| x rest IH]; intros done out Hr.
  - cbn. now rewrite string_append_empty.
  - cbn [length seq fold_left].
    unfold vec_to_str_step at 2.
    rewrite nth_error_app2, Nat.sub_diag by lia. cbn [nth_error].
    assert (Hlen : len (done ++ x :: rest)
                   = Z.of_nat (length done) + 1 + Z.of_nat (length rest)).
    { unfold len. rewrite length_app. cbn [length]. lia. }
    unfold SizeT.in_range in Hr. rewrite modulus_eq in Hr.
    unfold SizeT.sub. rewrite word_small by lia.
    replace (done ++ x :: rest) with ((done ++ [x]) ++ rest) in *
      by (now rewrite <- app_assoc).
    replace (S (length done)) with (length (done ++ [x]))
      by (rewrite length_app; cbn; lia).
    rewrite IH by (unfold SizeT.in_range; rewrite modulus_eq; lia).
    destruct rest as [| y rest].
    + destruct (Z.ltb_spec (Z.of_nat (length done))
                  (len ((done ++ [x]) ++ []) - 1)) as [Hlt | _].
      * rewrite Hlen in Hlt. cbn [length] in Hlt. lia.
      * cbn. now rewrite string_append_empty.
    + destruct (Z.ltb_spec (Z.of_nat (length done))
                  (len ((done ++ [x]) ++ y :: rest) - 1)) as [_ | Hge].
      * cbn [map String.concat]. now rewrite !string_append_assoc.
      * rewrite Hlen in Hge. cbn [length] in Hge. lia.
Qed.

(** X29.  [vec_to_str] joins the decimal renderings of the elements with
    [", "]: nothing before the first element, nothing after the last, and
    the empty string for an empty vector. *)
Theorem vec_to_str_joins_with_commas (data : list DataType) :
  SizeT.in_range (len data) ->
  vec_to_str to_string data
  = String.concat ", "%string (map to_string data).
Proof.
  intros Hr. unfold vec_to_str.
  apply (vec_to_str_from data [] String.EmptyString). exact Hr.
Qed.

End AudioDeviceFacts.

(** X30.  [rt_sample_formats_str] lists the names of the formats present
    in the mask, in table order and separated by [", "], and leaves one
    more [", "] at the end unless [float64], the last entry of the table,
    is among them; a mask with none of the six bits gives the empty
    string. *)
Theorem rt_sample_formats_str_lists_formats
    (SINT8 SINT16 SINT24 SINT32 FLOAT32 FLOAT64 mask : Z) :
  rt_sample_formats_str SINT8 SINT16 SINT24 SINT32 FLOAT32 FLOAT64 mask
  = String.append
      (String.concat ", "%string
         (formats_present SINT8 SINT16 SINT24 SINT32 FLOAT32 FLOAT64 mask))
      (if negb (string_empty
                  (String.concat ", "%string
                     (formats_present SINT8 SINT16 SINT24 SINT32 FLOAT32
                        FLOAT64 mask)))
          && (Z.land FLOAT64 mask =? 0)
       then ", "%string else String.EmptyString).
Proof.
  unfold rt_sample_formats_str, formats_present, rt_sample_formats_step,
    dtype, dtype_str.
  cbn [length seq fold_left nth_error combine filter fst snd].
  destruct (Z.land SINT8 mask =? 0), (Z.land SINT16 mask =? 0),
    (Z.land SINT24 mask =? 0), (Z.land SINT32 mask =? 0),
    (Z.land FLOAT32 mask =? 0), (Z.land FLOAT64 mask =? 0);
    reflexivity.
Qed.

Lemma vec_to_str_joins_with_commas_witness :
  vec_to_str (fun z : Z => if z =? 44100 then "44100" else "48000")%string
             [44100; 48000]
  = "44100, 48000"%string.
Proof.
  apply (vec_to_str_joins_with_commas
           (fun z : Z => if z =? 44100 then "44100" else "48000")%string
           [44100; 48000]).
  vm_compute. split; [discriminate | reflexivity].
Defined.
